(** * autoMOO: correlation matrix and column grouping ([utils.py])

    A shallow embedding of [correlation_matrix] and [group_columns] and the
    properties of the grouping scan.

    Python objects are modelled as follows.
    - A [dict] is an insertion-ordered association list ([Dict.t]); the keys
      of a Python dict are unique, which theorems that depend on it assume
      as [NoDup (Dict.keys row)].
    - A dataset is a list of rows, each row a dict from column name to a
      number ([num]: a Python [int] or a binary64 [float]).
    - Correlations and the threshold are binary64 floats ([PrimFloat]).
    - An exception aborts the call: functions return [result], either
      [Ok v] or [Raise e]. *)

From Stdlib Require Import String Ascii DecimalString DecimalNat ZArith PArith
  Arith Bool Lia Floats List.
Import ListNotations.

Set Implicit Arguments.
(* Decimal literals such as [0.9] denote the nearest binary64 value, as in
   Python. *)
Set Warnings "-inexact-float".
Open Scope string_scope.
Open Scope list_scope.

(** ** Exceptions and results *)

(** [IndexError] and [KeyError] are the built-in exceptions the modelled
    statements can raise.  [DataShapeError] and [DimensionMismatchError] are
    the error kinds named in the specification; no statement of [utils.py]
    raises them, they are here so that statements about them can be
    written. *)
Inductive exn : Type :=
| IndexError
| KeyError
| DataShapeError
| DimensionMismatchError.

Inductive result (A : Type) : Type :=
| Ok (a : A)
| Raise (e : exn).

Arguments Ok {A} a.
Arguments Raise {A} e.

Definition bind {A B : Type} (c : result A) (k : A -> result B) : result B :=
  match c with
  | Ok a => k a
  | Raise e => Raise e
  end.

Notation "x <- c ;; k" := (bind c (fun x => k))
  (at level 61, c at next level, right associativity).

(** [[f(x) for x in l]], stopping at the first exception. *)
Fixpoint mapM {A B : Type} (f : A -> result B) (l : list A) : result (list B) :=
  match l with
  | [] => Ok []
  | x :: l' => y <- f x ;; ys <- mapM f l' ;; Ok (y :: ys)
  end.

(** [for x in l: acc = f(acc, x)], stopping at the first exception. *)
Fixpoint foldM {A S : Type} (f : S -> A -> result S) (s : S) (l : list A)
  : result S :=
  match l with
  | [] => Ok s
  | x :: l' => s' <- f s x ;; foldM f s' l'
  end.

(** [l[i]] for a list and a non-negative index. *)
Definition index {A : Type} (l : list A) (i : nat) : result A :=
  match nth_error l i with
  | Some x => Ok x
  | None => Raise IndexError
  end.

(** ** Insertion-ordered dictionaries *)

Module Dict.

Definition t (V : Type) : Type := list (string * V).

Definition keys {V : Type} (d : t V) : list string := map fst d.

Definition values {V : Type} (d : t V) : list V := map snd d.

Fixpoint find {V : Type} (d : t V) (k : string) : option V :=
  match d with
  | [] => None
  | (k', v) :: d' => if String.eqb k k' then Some v else find d' k
  end.

(** [d[k]] *)
Definition get {V : Type} (d : t V) (k : string) : result V :=
  match find d k with
  | Some v => Ok v
  | None => Raise KeyError
  end.

(** [d[k] = v]: an existing key keeps its position, a new key goes last. *)
Fixpoint set {V : Type} (d : t V) (k : string) (v : V) : t V :=
  match d with
  | [] => [(k, v)]
  | (k', v') :: d' =>
      if String.eqb k k' then (k', v) :: d' else (k', v') :: set d' k v
  end.

End Dict.

(** ** Numbers *)

(** The values of a dataset: [ast.literal_eval] yields Python ints and
    floats. *)
Inductive num : Type :=
| PyInt (z : Z)
| PyFloat (f : float).

(** Conversion of a Python int to binary64, rounding to nearest even, as
    numpy does when it builds a float array.  (Python raises
    [OverflowError] above the binary64 range; here the result is an
    infinity.) *)
Definition float_of_Z (z : Z) : float :=
  SF2Prim (binary_normalize prec emax z 0 false).

Definition to_float (v : num) : float :=
  match v with
  | PyInt z => float_of_Z z
  | PyFloat f => f
  end.

(** [c > t] on floats; false as soon as one side is NaN. *)
Definition float_gt (c t : float) : bool := PrimFloat.ltb t c.

(** ** Pearson correlation *)

(** [np.corrcoef] belongs to numpy, not to this repository.
    [correlation_matrix] below takes the function computing
    [np.corrcoef(x, y)[0][1]] as a parameter; [pearson] is the instance used
    to run the scenarios. *)

Module Pearson.

Definition fsum (l : list float) : float := fold_left PrimFloat.add l 0%float.

Definition flen {A : Type} (l : list A) : float :=
  float_of_Z (Z.of_nat (length l)).

Definition mean (x : list float) : float := (fsum x / flen x)%float.

Definition dev (x : list float) : list float :=
  let m := mean x in map (fun a => (a - m)%float) x.

Definition dot (x y : list float) : float :=
  fsum (map (fun p => (fst p * snd p)%float) (combine x y)).

(** Sample covariance (normalised by [n - 1], numpy's default). *)
Definition cov (x y : list float) : float :=
  (dot (dev x) (dev y) / (flen x - 1))%float.

Definition std (x : list float) : float := PrimFloat.sqrt (cov x x).

(** The coefficient ranges over [[-1, 1]]: a value that rounding pushed
    outside is brought back to the bound; NaN passes through. *)
Definition clip (c : float) : float :=
  if (c <? -1)%float then (-1)%float
  else if (1 <? c)%float then 1%float
  else c.

(** Modelled from the spec: [np.corrcoef(x, y)[0][1]] is missing from the
    sources; the specification gives it as the Pearson coefficient
    [cov(x,y) / (std(x) * std(y))], NaN when a column has zero variance. *)
Definition pearson (x y : list num) : float :=
  let fx := map to_float x in
  let fy := map to_float y in
  clip (cov fx fy / (std fx * std fy))%float.

(** [np.corrcoef(x, y)[0][1]] in the order in which numpy computes it: the
    covariance is divided by the standard deviation of [x], then by that of
    [y], and the quotient is clipped.  numpy is not part of the sources;
    this instance differs from [pearson] in rounding only and shows what
    the order of the two columns does to the last bit. *)
Definition corrcoef_np (x y : list num) : float :=
  let fx := map to_float x in
  let fy := map to_float y in
  clip ((cov fx fy / std fx) / std fy)%float.

End Pearson.

(** ** [correlation_matrix] *)

Definition row : Type := Dict.t num.
Definition dataset : Type := list row.
Definition matrix : Type := list (list float).

(** [row[list(row.keys())[i]]] *)
Definition cell_at (r : row) (i : nat) : result num :=
  k <- index (Dict.keys r) i ;; Dict.get r k.

(** [[row[list(row.keys())[i]] for row in data]] *)
Definition column (data : dataset) (i : nat) : result (list num) :=
  mapM (fun r => cell_at r i) data.

Section CorrelationMatrix.

(** [corrcoef01 x y] stands for [np.corrcoef(x, y)[0][1]] on a call that
    returns.  numpy can also raise (on an int too large for binary64, for
    one); what is proved of the matrix is therefore stated for the runs
    that return it, or for datasets on which no coefficient is computed. *)
Variable corrcoef01 : list num -> list num -> float.

(** The body of the inner loop: one correlation. *)
Definition correlation (data : dataset) (i j : nat) : result float :=
  x <- column data i ;;
  y <- column data j ;;
  Ok (corrcoef01 x y).

(** The heat-map figure returned next to the matrix is display only and
    is left out. *)
Definition correlation_matrix (data : dataset) : result matrix :=
  row0 <- index data 0 ;;
  let num_cols := length row0 in
  mapM (fun i => mapM (fun j => correlation data i j) (seq 0 num_cols))
       (seq 0 num_cols).

End CorrelationMatrix.

(** ** [group_columns] *)

(** A value of a grouped row: the [[]] every row starts with under
    ['Group 1'], or a value copied from the dataset. *)
Inductive cell : Type :=
| EmptyList
| Val (v : num).

Definition grouped_row : Type := Dict.t cell.
Definition group_assignment : Type := Dict.t (list string).

Record gstate : Type := mk_gstate
  { group_label : nat;
    group_labels_with_columns : group_assignment;
    data_grouped : list grouped_row }.

(** [str(n)] *)
Definition str (n : nat) : string := NilEmpty.string_of_uint (Nat.to_uint n).

Definition init_group : string := "Group 1".

(** ['Group ' + str(group_label)] *)
Definition name_of_group (label : nat) : string := ("Group " ++ str label)%string.

(** [col in group_cols].  [group_cols] is the sorted set of the members of
    all groups; sorting and removing duplicates do not change membership,
    so the test runs over the concatenated member lists. *)
Definition grouped (groups : group_assignment) (col : string) : bool :=
  existsb (String.eqb col) (concat (Dict.values groups)).

Section GroupColumns.

Variable data : dataset.
Variable cors : matrix.
Variable cor_threshold : float.
Variable col_list : list string.

(** One iteration of [for leftover in range(val+1, len(col_list))]. *)
Definition scan (val : nat) (group_name : string)
    (groups : group_assignment) (leftover : nat) : result group_assignment :=
  cors_val <- index cors val ;;
  correlation_val <- index cors_val leftover ;;
  if float_gt correlation_val cor_threshold then
    stor <- index col_list leftover ;;
    members <- Dict.get groups group_name ;;
    Ok (Dict.set groups group_name (members ++ [stor]))
  else Ok groups.

(** [for i, group_val in enumerate(group_vals):
       data_grouped[i][group_name] = group_val] *)
Definition store_group_vals (dg : list grouped_row) (group_name : string)
    (group_vals : list num) : list grouped_row :=
  map (fun p => Dict.set (fst p) group_name (Val (snd p)))
      (combine dg group_vals).

(** The body of [for col in col_list], with [val] already incremented. *)
Definition visit (st : gstate) (val : nat) (col : string) : result gstate :=
  if negb (grouped (group_labels_with_columns st) col) then
    let label := S (group_label st) in
    let group_name := name_of_group label in
    let groups := Dict.set (group_labels_with_columns st) group_name [col] in
    group_vals <- column data val ;;
    let dg := store_group_vals (data_grouped st) group_name group_vals in
    groups' <- foldM (scan val group_name) groups
                 (seq (S val) (length col_list - S val)) ;;
    Ok (mk_gstate label groups' dg)
  else Ok st.

(** [for col in col_list]; the source keeps [val] in a variable that
    starts at [-1] and is incremented first thing in the body, so the
    iteration for the [k]-th column runs with [val = k]. *)
Fixpoint columns_loop (val : nat) (cols : list string) (st : gstate)
  : result gstate :=
  match cols with
  | [] => Ok st
  | col :: rest => st' <- visit st val col ;; columns_loop (S val) rest st'
  end.

End GroupColumns.

Definition init_state (data : dataset) : gstate :=
  mk_gstate 0 [(init_group, [])] (map (fun _ => [(init_group, EmptyList)]) data).

Definition group_columns (data : dataset) (cors : matrix) (cor_threshold : float)
  : result (list grouped_row * group_assignment) :=
  row0 <- index data 0 ;;
  let col_list := Dict.keys row0 in
  st <- columns_loop data cors cor_threshold col_list 0 col_list
          (init_state data) ;;
  Ok (data_grouped st, group_labels_with_columns st).

(** ** [update_dashboard] *)

(** The contents of the [memory] store: [{'data': data, 'cors': cors}]. *)
Record memory : Type := mk_memory
  { mem_data : dataset;
    mem_cors : matrix }.

(** A row of the group table: [{'Group': key, 'Columns': text}]. *)
Record table_row : Type := mk_table_row
  { Group : string;
    Columns : string }.

(** A dataset as [create_parallel] receives it: a list of dicts. *)
Definition raw_rows (data : dataset) : list grouped_row :=
  map (fun r : row => map (fun kv => (fst kv, Val (snd kv))) r) data.

(** [[{'Group': key, 'Columns': ', '.join(value)} for key, value in
    group_labels_with_columns.items()]] *)
Definition group_table (groups : group_assignment) : list table_row :=
  map (fun kv => mk_table_row (fst kv) (String.concat ", " (snd kv))) groups.

Section Dashboard.

(** [create_parallel] renders its rows with hiplot and returns the page as
    a string; it is display code and stays a parameter, which stands for
    the calls on which hiplot returns (it can raise on its own account). *)
Variable create_parallel : list grouped_row -> string.

(** The callback behind the "Update Plot" button, for a numeric threshold.
    [group_table_data] is [None] as long as the table holds no data. *)
Definition update_dashboard (n_clicks : Z) (cor_threshold : float)
    (group_table_data : option (list table_row)) (memory_data : memory)
  : result (string * option (list table_row)) :=
  let data := mem_data memory_data in
  let cors := mem_cors memory_data in
  if (n_clicks =? 0)%Z then
    Ok (create_parallel (raw_rows data), group_table_data)
  else
    res <- group_columns data cors cor_threshold ;;
    Ok (create_parallel (fst res), Some (group_table (snd res))).

End Dashboard.

(** ** Scenario data *)

(** The dataset of scenarios A and B. *)
Definition scenario : dataset :=
  [ [("a", PyInt 1); ("b", PyInt 2); ("c", PyInt 10)];
    [("a", PyInt 2); ("b", PyInt 4); ("c", PyInt 1)];
    [("a", PyInt 3); ("b", PyInt 6); ("c", PyInt 5)] ].



(** [c = a + b] with [a] and [b] uncorrelated. *)
Definition overlap : dataset :=
  [ [("a", PyInt 1);    ("b", PyInt 1);    ("c", PyInt 2)];
    [("a", PyInt (-1)); ("b", PyInt 1);    ("c", PyInt 0)];
    [("a", PyInt 1);    ("b", PyInt (-1)); ("c", PyInt 0)];
    [("a", PyInt (-1)); ("b", PyInt (-1)); ("c", PyInt (-2))] ].

(** [q = p + 2r + 2s] with [p], [r], [s] pairwise uncorrelated. *)
Definition four : dataset :=
  [ [("p", PyInt 1);    ("q", PyInt 5);    ("r", PyInt 1);    ("s", PyInt 1)];
    [("p", PyInt 1);    ("q", PyInt (-3)); ("r", PyInt (-1)); ("s", PyInt (-1))];
    [("p", PyInt (-1)); ("q", PyInt (-1)); ("r", PyInt 1);    ("s", PyInt (-1))];
    [("p", PyInt (-1)); ("q", PyInt (-1)); ("r", PyInt (-1)); ("s", PyInt 1)] ].

(** [b = a + c] with [a] and [c] uncorrelated. *)
Definition chain : dataset :=
  [ [("a", PyInt 1);    ("b", PyInt 2);    ("c", PyInt 1)];
    [("a", PyInt 1);    ("b", PyInt 0);    ("c", PyInt (-1))];
    [("a", PyInt (-1)); ("b", PyInt 0);    ("c", PyInt 1)];
    [("a", PyInt (-1)); ("b", PyInt (-2)); ("c", PyInt (-1))] ].

(** A dataset with a constant column [k]. *)
Definition flat : dataset :=
  [ [("a", PyInt 1); ("k", PyInt 7); ("b", PyInt 2)];
    [("a", PyInt 2); ("k", PyInt 7); ("b", PyInt 4)];
    [("a", PyInt 3); ("k", PyInt 7); ("b", PyInt 5)] ].

(** Rows with different key sets. *)
Definition mixed : dataset :=
  [ [("a", PyInt 1); ("b", PyInt 2)];
    [("x", PyInt 2); ("y", PyInt 3)];
    [("a", PyInt 4); ("b", PyInt 7)] ].

(** Two rows without columns. *)
Definition no_columns : dataset := [[]; []].

(** The matrix of a dataset for which [correlation_matrix] returns. *)
Definition cors_of (data : dataset) : matrix :=
  match correlation_matrix Pearson.pearson data with
  | Ok m => m
  | Raise _ => []
  end.

(** * Vocabulary of the properties *)

(** ** Groups by column index *)

(** The representatives the left-to-right scan finds: a column founds a
    group unless an earlier representative [r] absorbed it, that is unless
    [abv r v] holds for some representative found so far. *)
Fixpoint founders (abv : nat -> nat -> bool) (vals reps : list nat) : list nat :=
  match vals with
  | [] => reps
  | v :: rest =>
      if existsb (fun r => abv r v) reps then founders abv rest reps
      else founders abv rest (reps ++ [v])
  end.

Section ScanVocabulary.

Variable cors : matrix.
Variable thr : float.
Variable col_list : list string.

(** [cors[i][j] > thr], for an entry that exists. *)
Definition above (i j : nat) : bool :=
  match nth_error cors i with
  | Some cors_i =>
      match nth_error cors_i j with
      | Some c => float_gt c thr
      | None => false
      end
  | None => false
  end.

Definition col_name (j : nat) : string := nth j col_list EmptyString.

(** The names appended during the turn of column [i]. *)
Definition absorbed (i : nat) : list string :=
  map col_name (filter (above i) (seq (S i) (length col_list - S i))).

(** The member list of the group that column [i] founds. *)
Definition group_of (i : nat) : list string := col_name i :: absorbed i.

End ScanVocabulary.

(** The dict of groups, built from the member lists in discovery order: the
    initial ['Group 1': []] when there is none, else ['Group k'] for the
    [k]-th list. *)
Definition label_groups (gs : list (list string)) : group_assignment :=
  match gs with
  | [] => [(init_group, [])]
  | _ => combine (map name_of_group (seq 1 (length gs))) gs
  end.

(** The column names and the representatives of a dataset. *)
Definition columns_of (data : dataset) : list string :=
  match data with
  | [] => []
  | row0 :: _ => Dict.keys row0
  end.

Definition reps_of (data : dataset) (cors : matrix) (thr : float) : list nat :=
  founders (above cors thr) (seq 0 (length (columns_of data))) [].

(** The keys of a dict are distinct. *)
Definition unique_columns (data : dataset) : Prop := NoDup (columns_of data).

(** [r] precedes [v] in the scan and did not absorb it. *)
Definition passed_over (abv : nat -> nat -> bool) (r v : nat) : Prop :=
  r < v /\ abv r v = false.

(** The dict that holds [vs] under ['Group 1'], ['Group 2'], ... in that
    order, or the placeholder [d] under ['Group 1'] when [vs] is empty. *)
Definition label_with {V : Type} (d : V) (vs : list V) : Dict.t V :=
  match vs with
  | [] => [(init_group, d)]
  | _ => combine (map name_of_group (seq 1 (length vs))) vs
  end.

(** The cell copied from position [r] of a row. *)
Definition cell_of (r : row) (i : nat) : cell :=
  match cell_at r i with
  | Ok v => Val v
  | Raise _ => EmptyList
  end.

(** The grouped row of a dataset row, given the representatives. *)
Definition grouped_row_of (reps : list nat) (r : row) : grouped_row :=
  label_with EmptyList (map (cell_of r) reps).

(** [cors[i][j]] as the scan reads it. *)
Definition read_entry (cors : matrix) (i j : nat) : result float :=
  cors_i <- index cors i ;; index cors_i j.

(** ** Groups and their representatives *)

(** [a] and [c] are listed together in some group. *)
Definition same_group (g : group_assignment) (a c : string) : Prop :=
  exists name members, In (name, members) g /\ In a members /\ In c members.

(** [a] founds a group: it is the first member of one. *)
Definition representative (g : group_assignment) (a : string) : Prop :=
  exists name members, In (name, a :: members) g.

(** [cors[i][j]], when that entry exists. *)
Definition entry (cors : matrix) (i j : nat) : option float :=
  match nth_error cors i with
  | Some cors_i => nth_error cors_i j
  | None => None
  end.

(** [m[i][j] == m[j][i]] with the [==] of floats, which is false when a
    side is NaN. *)
Definition symmetric_at (m : matrix) (i j : nat) : bool :=
  match entry m i j, entry m j i with
  | Some a, Some b => PrimFloat.eqb a b
  | _, _ => false
  end.

(** The member lists of [g] list every name of [cols] exactly once. *)
Definition partitions (g : group_assignment) (cols : list string) : Prop :=
  NoDup (concat (Dict.values g))
  /\ forall c, In c (concat (Dict.values g)) <-> In c cols.

(** All members of [g] are alone in their group, one group per column. *)
Definition singleton_groups (g : group_assignment) (cols : list string) : Prop :=
  Dict.values g = map (fun c => [c]) cols.

(** ** Shapes *)

(** The matrix is square of the size of the dataset's column count. *)
Definition dimensions_match (data : dataset) (cors : matrix) : Prop :=
  length cors = length (columns_of data)
  /\ Forall (fun r => length r = length (columns_of data)) cors.

(** Every row has an entry for each column of the first row. *)
Definition rows_cover (data : dataset) : Prop :=
  data <> []
  /\ Forall (fun r : row => length (columns_of data) <= length r) data.

(** The matrix has at least as many rows and columns as the dataset has
    columns. *)
Definition matrix_covers (data : dataset) (cors : matrix) : Prop :=
  length (columns_of data) <= length cors
  /\ Forall (fun r => length (columns_of data) <= length r) cors.

(** All rows have the keys of the first, in the same order. *)
Definition uniformly_keyed (data : dataset) : Prop :=
  Forall (fun r : row => Dict.keys r = columns_of data) data.

(** A valid dataset: at least one row, all rows keyed alike. *)
Definition rectangular (data : dataset) : Prop :=
  data <> [] /\ uniformly_keyed data.

(** ** Matrix update *)

(** [l] with position [i] holding [v]; [l] itself when there is no such
    position. *)
Fixpoint list_set {A : Type} (l : list A) (i : nat) (v : A) : list A :=
  match l, i with
  | [], _ => []
  | _ :: l', 0 => v :: l'
  | x :: l', S i' => x :: list_set l' i' v
  end.

(** [cors] with entry [[i][j]] replaced by [v]. *)
Definition set_entry (cors : matrix) (i j : nat) (v : float) : matrix :=
  match nth_error cors i with
  | Some cors_i => list_set cors i (list_set cors_i j v)
  | None => cors
  end.

(** * Properties *)

Unset Implicit Arguments.

(** ** The result monad *)

Lemma bind_Ok_inv {A B : Type} (c : result A) (k : A -> result B) (b : B) :
  bind c k = Ok b -> exists a, c = Ok a /\ k a = Ok b.
Proof.
  destruct c as [a|e]; simpl; intros H; [exists a; auto | discriminate].
Qed.


Ltac inv_bind H :=
  let a := fresh "a" in
  let Ha := fresh "Ha" in
  apply bind_Ok_inv in H; destruct H as (a & Ha & H).

Lemma index_Ok {A : Type} (l : list A) (i : nat) (x : A) :
  index l i = Ok x <-> nth_error l i = Some x.
Proof.
  unfold index. destruct (nth_error l i); split; intros H; congruence.
Qed.

Lemma index_lt {A : Type} (l : list A) (i : nat) :
  i < length l -> exists x, index l i = Ok x.
Proof.
  intros H. unfold index. destruct (nth_error l i) as [x|] eqn:E.
  - exists x; reflexivity.
  - apply nth_error_None in E. lia.
Qed.

Lemma index_Raise {A : Type} (l : list A) (i : nat) (e : exn) :
  index l i = Raise e -> e = IndexError.
Proof.
  unfold index. destruct (nth_error l i); congruence.
Qed.

Lemma mapM_Ok_length {A B : Type} (f : A -> result B) (l : list A) (r : list B) :
  mapM f l = Ok r -> length r = length l.
Proof.
  revert r. induction l as [|x l IH]; simpl; intros r H.
  - injection H as <-. reflexivity.
  - inv_bind H. inv_bind H. injection H as <-. simpl. f_equal. auto.
Qed.

Lemma mapM_Ok_nth {A B : Type} (f : A -> result B) (l : list A) (r : list B) :
  mapM f l = Ok r ->
  forall i x, nth_error l i = Some x ->
  exists y, nth_error r i = Some y /\ f x = Ok y.
Proof.
  revert r. induction l as [|x0 l IH]; simpl; intros r H i x Hi.
  - destruct i; discriminate.
  - inv_bind H. inv_bind H. injection H as <-.
    destruct i as [|i]; simpl in *.
    + injection Hi as <-. eauto.
    + eauto.
Qed.

Lemma mapM_total {A B : Type} (f : A -> result B) (l : list A) :
  (forall x, In x l -> exists y, f x = Ok y) -> exists r, mapM f l = Ok r.
Proof.
  induction l as [|x l IH]; simpl; intros H.
  - eauto.
  - destruct (H x) as [y Hy]; auto. rewrite Hy. simpl.
    destruct IH as [r Hr]; auto. rewrite Hr. simpl. eauto.
Qed.


Lemma foldM_ext_in {A S : Type} (f g : S -> A -> result S) (l : list A) :
  (forall s x, In x l -> f s x = g s x) ->
  forall s, foldM f s l = foldM g s l.
Proof.
  induction l as [|x l IH]; simpl; intros H s.
  - reflexivity.
  - rewrite (H s x) by auto. destruct (g s x); simpl; auto.
Qed.

(** ** Dictionaries *)

Lemma find_in_keys {V : Type} (d : Dict.t V) (k : string) :
  In k (Dict.keys d) -> exists v, Dict.find d k = Some v.
Proof.
  induction d as [|[k' v'] d IH]; simpl; intros H.
  - contradiction.
  - destruct (String.eqb_spec k k') as [->|Hne]; [eauto|].
    destruct H as [H|H]; [congruence | auto].
Qed.

Lemma find_set_same {V : Type} (d : Dict.t V) (k : string) (v : V) :
  Dict.find (Dict.set d k v) k = Some v.
Proof.
  induction d as [|[k' v'] d IH]; simpl.
  - rewrite String.eqb_refl. reflexivity.
  - destruct (String.eqb_spec k k') as [->|Hne]; simpl.
    + rewrite String.eqb_refl. reflexivity.
    + destruct (String.eqb_spec k k'); [contradiction | exact IH].
Qed.

Lemma set_set {V : Type} (d : Dict.t V) (k : string) (v v' : V) :
  Dict.set (Dict.set d k v) k v' = Dict.set d k v'.
Proof.
  induction d as [|[k' w] d IH]; simpl.
  - rewrite String.eqb_refl. reflexivity.
  - destruct (String.eqb_spec k k') as [->|Hne]; simpl.
    + rewrite String.eqb_refl. reflexivity.
    + destruct (String.eqb_spec k k'); [contradiction | now rewrite IH].
Qed.

Lemma set_find {V : Type} (d : Dict.t V) (k : string) (v : V) :
  Dict.find d k = Some v -> Dict.set d k v = d.
Proof.
  induction d as [|[k' w] d IH]; simpl; intros H.
  - discriminate.
  - destruct (String.eqb_spec k k') as [->|Hne].
    + congruence.
    + now rewrite IH.
Qed.

Lemma set_fresh {V : Type} (d : Dict.t V) (k : string) (v : V) :
  ~ In k (Dict.keys d) -> Dict.set d k v = d ++ [(k, v)].
Proof.
  induction d as [|[k' w] d IH]; simpl; intros H.
  - reflexivity.
  - destruct (String.eqb_spec k k') as [->|Hne].
    + tauto.
    + rewrite IH; tauto.
Qed.

Lemma cell_at_lt (r : row) (i : nat) :
  i < length r -> exists v, cell_at r i = Ok v.
Proof.
  intros H. unfold cell_at.
  destruct (index_lt (Dict.keys r) i) as [k Hk].
  { unfold Dict.keys. now rewrite length_map. }
  rewrite Hk. simpl. unfold Dict.get.
  apply index_Ok, nth_error_In, find_in_keys in Hk as [v ->]. eauto.
Qed.

Lemma cell_at_Raise (r : row) (i : nat) (e : exn) :
  cell_at r i = Raise e -> e = IndexError /\ length r <= i.
Proof.
  unfold cell_at. intros H.
  destruct (index (Dict.keys r) i) as [k|e'] eqn:Hk; simpl in H.
  - unfold Dict.get in H.
    apply index_Ok, nth_error_In, find_in_keys in Hk as [v Hv].
    rewrite Hv in H. discriminate.
  - injection H as ->. split; [eapply index_Raise; eauto|].
    unfold index in Hk. destruct (nth_error (Dict.keys r) i) eqn:E; [discriminate|].
    apply nth_error_None in E. unfold Dict.keys in E. now rewrite length_map in E.
Qed.


Lemma column_total (data : dataset) (i : nat) :
  Forall (fun r : row => i < length r) data -> exists x, column data i = Ok x.
Proof.
  intros H. apply mapM_total. intros r Hr.
  apply cell_at_lt. rewrite Forall_forall in H. auto.
Qed.

Lemma column_length (data : dataset) (i : nat) (x : list num) :
  column data i = Ok x -> length x = length data.
Proof. apply mapM_Ok_length. Qed.

(** ** Float comparisons *)

Lemma SFltb_trans (x y z : spec_float) :
  SFltb x y = true -> SFltb y z = true -> SFltb x z = true.
Proof.
  unfold SFltb.
  destruct x as [sx|sx| |sx mx ex], y as [sy|sy| |sy my ey],
           z as [sz|sz| |sz mz ez];
    cbn; try discriminate; try reflexivity;
    try (destruct sx; discriminate); try (destruct sy; discriminate);
    try (destruct sz; discriminate);
    try (destruct sx, sy; (discriminate || reflexivity));
    try (destruct sy, sz; (discriminate || reflexivity));
    try (destruct sx, sz; (discriminate || reflexivity));
    try (destruct sx, sy, sz; (discriminate || reflexivity)).
  destruct sx, sy, sz; try discriminate; try reflexivity;
    destruct (Z.compare_spec ex ey), (Z.compare_spec ey ez);
    try discriminate; subst;
    try rewrite Z.compare_refl;
    repeat match goal with
    | H : (?a < ?b)%Z |- context [Z.compare ?a ?b] =>
        rewrite (proj2 (Z.compare_lt_iff a b) H)
    | H : (?a < ?b)%Z |- context [Z.compare ?b ?a] =>
        rewrite (proj2 (Z.compare_gt_iff b a) H)
    end; try reflexivity;
    try (assert (Hlt : (ex < ez)%Z) by lia;
         rewrite (proj2 (Z.compare_lt_iff _ _) Hlt); reflexivity);
    try (assert (Hlt : (ez < ex)%Z) by lia;
         rewrite (proj2 (Z.compare_gt_iff _ _) Hlt); reflexivity);
    fold (Pos.compare mx my); fold (Pos.compare my mz);
    fold (Pos.compare mx mz);
    destruct (Pos.compare_spec mx my), (Pos.compare_spec my mz); cbn;
    try discriminate; intros _ _.
  - assert (Hlt : (mz < mx)%positive) by lia.
    rewrite (proj2 (Pos.compare_gt_iff _ _) Hlt). reflexivity.
  - assert (Hlt : (mx < mz)%positive) by lia.
    rewrite (proj2 (Pos.compare_lt_iff _ _) Hlt). reflexivity.
Qed.

(** A correlation above the higher of two thresholds is above the lower. *)
Lemma float_gt_trans (c t2 t1 : float) :
  (t1 <? t2)%float = true -> float_gt c t2 = true -> float_gt c t1 = true.
Proof.
  unfold float_gt. rewrite !ltb_spec. apply SFltb_trans.
Qed.

Lemma SFeqb_irrefl_nan (x : spec_float) : SFeqb x x = false -> x = S754_nan.
Proof.
  unfold SFeqb. destruct x as [s|s| |s m e]; cbn;
    try discriminate; try reflexivity.
  - destruct s; discriminate.
  - rewrite Z.compare_refl. fold (Pos.compare m m). rewrite Pos.compare_refl.
    destruct s; discriminate.
Qed.

(** NaN is above no threshold. *)
Lemma float_gt_nan (c t : float) : is_nan c = true -> float_gt c t = false.
Proof.
  unfold is_nan, float_gt. rewrite eqb_spec, ltb_spec. intros H.
  apply negb_true_iff, SFeqb_irrefl_nan in H. rewrite H.
  destruct (Prim2SF t); reflexivity.
Qed.

(** ** Group labels *)

Lemma str_inj (n m : nat) : str n = str m -> n = m.
Proof.
  unfold str. intros H.
  apply (f_equal NilEmpty.uint_of_string) in H.
  rewrite !NilEmpty.usu in H. injection H as H.
  apply (f_equal Nat.of_uint) in H.
  now rewrite !DecimalNat.Unsigned.of_to in H.
Qed.

Lemma name_of_group_inj (n m : nat) : name_of_group n = name_of_group m -> n = m.
Proof.
  unfold name_of_group. simpl. intros H. injection H as H. now apply str_inj.
Qed.

Lemma combine_app {A B : Type} (l1 l2 : list A) (k1 k2 : list B) :
  length l1 = length k1 ->
  combine (l1 ++ l2) (k1 ++ k2) = combine l1 k1 ++ combine l2 k2.
Proof.
  revert k1. induction l1 as [|a l1 IH]; intros [|b k1]; simpl; intros H;
    try discriminate; [reflexivity|].
  f_equal. apply IH. lia.
Qed.

Lemma map_fst_combine {A B : Type} (l : list A) (k : list B) :
  length l = length k -> map fst (combine l k) = l.
Proof.
  revert k. induction l as [|a l IH]; intros [|b k]; simpl; intros H;
    try discriminate; [reflexivity|].
  f_equal. apply IH. lia.
Qed.

Lemma map_snd_combine {A B : Type} (l : list A) (k : list B) :
  length l = length k -> map snd (combine l k) = k.
Proof.
  revert k. induction l as [|a l IH]; intros [|b k]; simpl; intros H;
    try discriminate; [reflexivity|].
  f_equal. apply IH. lia.
Qed.

Lemma label_groups_cons_eq (gs : list (list string)) :
  gs <> [] ->
  label_groups gs = combine (map name_of_group (seq 1 (length gs))) gs.
Proof. destruct gs; [congruence | reflexivity]. Qed.

Lemma concat_values_label_groups (gs : list (list string)) :
  concat (Dict.values (label_groups gs)) = concat gs.
Proof.
  destruct gs as [|g gs]; [reflexivity|].
  rewrite label_groups_cons_eq by discriminate.
  unfold Dict.values. rewrite map_snd_combine; [reflexivity|].
  now rewrite length_map, length_seq.
Qed.

Lemma length_label_groups (gs : list (list string)) :
  length (label_groups gs) = Nat.max 1 (length gs).
Proof.
  destruct gs as [|g gs]; [reflexivity|].
  rewrite label_groups_cons_eq by discriminate.
  rewrite length_combine, length_map, length_seq. simpl. lia.
Qed.

Lemma in_label_groups (gs : list (list string)) (name : string)
    (m : list string) :
  gs <> [] -> In (name, m) (label_groups gs) -> In m gs.
Proof.
  intros Hne H. rewrite label_groups_cons_eq in H by assumption.
  eapply in_combine_r; eauto.
Qed.

(** Opening group number [length gs + 1] with member list [m]. *)
Lemma set_label_groups (gs : list (list string)) (m : list string) :
  Dict.set (label_groups gs) (name_of_group (S (length gs))) m
  = label_groups (gs ++ [m]).
Proof.
  destruct gs as [|g gs]; [reflexivity|].
  rewrite !label_groups_cons_eq by (destruct gs; discriminate).
  remember (g :: gs) as gs' eqn:Egs. clear Egs g gs.
  assert (Hn : length (gs' ++ [m]) = S (length gs')).
  { rewrite length_app. simpl. lia. }
  rewrite Hn, seq_S, map_app.
  rewrite combine_app by (now rewrite length_map, length_seq).
  change (combine (map name_of_group [1 + length gs']) [m])
    with [(name_of_group (S (length gs')), m)].
  apply set_fresh.
  unfold Dict.keys. rewrite map_fst_combine by (now rewrite length_map, length_seq).
  intros Hin. apply in_map_iff in Hin as (k & Hk & Hin).
  apply name_of_group_inj in Hk. apply in_seq in Hin. lia.
Qed.

(** ** The scan, by column index *)

Section Scan.

Variable cors : matrix.
Variable thr : float.
Variable col_list : list string.

Lemma col_name_inj (i j : nat) :
  NoDup col_list -> i < length col_list -> j < length col_list ->
  col_name col_list i = col_name col_list j -> i = j.
Proof.
  intros Hnd Hi Hj H. unfold col_name in H.
  eapply (proj1 (NoDup_nth col_list EmptyString)); eauto.
Qed.

Lemma in_absorbed (i j : nat) :
  NoDup col_list -> j < length col_list ->
  In (col_name col_list j) (absorbed cors thr col_list i) <-> i < j /\ above cors thr i j = true.
Proof.
  intros Hnd Hj. unfold absorbed. rewrite in_map_iff. split.
  - intros (k & Hk & Hin). apply filter_In in Hin as [Hin Hab].
    apply in_seq in Hin.
    assert (k = j) by (apply col_name_inj; auto; lia). subst k.
    split; [lia | assumption].
  - intros [Hij Hab]. exists j. split; [reflexivity|].
    apply filter_In. split; [apply in_seq; lia | assumption].
Qed.

Lemma in_absorbed_inv (i : nat) (c : string) :
  In c (absorbed cors thr col_list i) ->
  exists j, i < j < length col_list /\ c = col_name col_list j /\ above cors thr i j = true.
Proof.
  unfold absorbed. rewrite in_map_iff. intros (k & Hk & Hin).
  apply filter_In in Hin as [Hin Hab]. apply in_seq in Hin.
  exists k. repeat split; auto; lia.
Qed.

(** The inner loop appends to the current group the names of the scanned
    columns whose correlation is above cors thr the threshold. *)
Lemma foldM_scan (val : nat) (name : string) (js : list nat) :
  forall (g g' : group_assignment) (l : list string),
  Dict.find g name = Some l ->
  foldM (scan cors thr col_list val name) g js = Ok g' ->
  Forall (fun j => j < length col_list) js ->
  g' = Dict.set g name (l ++ map (col_name col_list) (filter (above cors thr val) js)).
Proof.
  induction js as [|j js IH]; simpl; intros g g' l Hl H Hjs.
  - injection H as <-. rewrite app_nil_r. symmetry. now apply set_find.
  - inversion Hjs as [|? ? Hj Hjs']; subst.
    inv_bind H. unfold scan in Ha.
    inv_bind Ha. apply index_Ok in Ha0.
    inv_bind Ha. apply index_Ok in Ha1.
    unfold above at 1. rewrite Ha0, Ha1.
    destruct (float_gt a1 thr) eqn:Egt.
    + inv_bind Ha. apply index_Ok in Ha2.
      inv_bind Ha. unfold Dict.get in Ha3. rewrite Hl in Ha3.
      injection Ha3 as <-. injection Ha as <-.
      rewrite (IH _ _ (l ++ [a2]) (find_set_same _ _ _) H Hjs').
      rewrite set_set. simpl. rewrite <- app_assoc. simpl.
      unfold col_name at 2. rewrite (nth_error_nth _ _ _ Ha2). reflexivity.
    + injection Ha as <-. eauto.
Qed.

(** Whether a column is already grouped, in terms of the representatives
    found so far. *)
Lemma grouped_label_groups (reps : list nat) (val : nat) :
  NoDup col_list -> val < length col_list ->
  Forall (fun r => r < val) reps ->
  grouped (label_groups (map (group_of cors thr col_list) reps)) (col_name col_list val)
  = existsb (fun r => above cors thr r val) reps.
Proof.
  intros Hnd Hval Hreps. unfold grouped.
  rewrite concat_values_label_groups.
  apply eq_true_iff_eq. rewrite !existsb_exists. split.
  - intros (c & Hin & Hc). apply String.eqb_eq in Hc. subst c.
    apply in_concat in Hin as (g & Hg & Hin).
    apply in_map_iff in Hg as (r & <- & Hr).
    exists r. split; [assumption|].
    rewrite Forall_forall in Hreps. specialize (Hreps r Hr).
    destruct Hin as [Hin|Hin].
    + apply col_name_inj in Hin; auto; lia.
    + apply in_absorbed in Hin; tauto.
  - intros (r & Hr & Hab). exists (col_name col_list val).
    split; [|apply String.eqb_refl].
    apply in_concat. exists (group_of cors thr col_list r). split; [now apply in_map|].
    right. apply in_absorbed; auto.
    rewrite Forall_forall in Hreps. specialize (Hreps r Hr). tauto.
Qed.

End Scan.

(** ** [group_columns] computes the groups of [founders] *)

Lemma skipn_cons_inv {A : Type} (d : A) (n : nat) :
  forall (l : list A) (x : A) (rest : list A),
  skipn n l = x :: rest ->
  n < length l /\ x = nth n l d /\ skipn (S n) l = rest.
Proof.
  induction n as [|n IH]; intros [|y l] x rest H; simpl in *;
    try discriminate.
  - injection H as <- <-. repeat split; auto. lia.
  - destruct (IH _ _ _ H) as (H1 & H2 & H3). repeat split; auto. lia.
Qed.

Section Refinement.

Variable data : dataset.
Variable cors : matrix.
Variable thr : float.
Variable col_list : list string.
Hypothesis col_list_NoDup : NoDup col_list.

Let groups_of (reps : list nat) : group_assignment :=
  label_groups (map (group_of cors thr col_list) reps).

Lemma visit_groups (st st' : gstate) (reps : list nat) (val : nat) :
  val < length col_list ->
  group_labels_with_columns st = groups_of reps ->
  group_label st = length reps ->
  Forall (fun r => r < val) reps ->
  visit data cors thr col_list st val (col_name col_list val) = Ok st' ->
  let reps' := if existsb (fun r => above cors thr r val) reps
               then reps else reps ++ [val] in
  group_labels_with_columns st' = groups_of reps'
  /\ group_label st' = length reps'.
Proof.
  intros Hval Hg Hl Hreps H. unfold visit in H. rewrite Hg in H.
  unfold groups_of in H. rewrite grouped_label_groups in H by assumption.
  destruct (existsb (fun r => above cors thr r val) reps); simpl in *.
  - injection H as <-. auto.
  - inv_bind H. inv_bind H. injection H as <-. simpl.
    split; [|rewrite length_app; simpl; lia].
    apply (foldM_scan cors thr col_list val _ _ _ _ [col_name col_list val])
      in Ha0;
      [ | apply find_set_same
        | apply Forall_forall; intros j Hj; apply in_seq in Hj; lia ].
    rewrite Ha0, set_set, Hl.
    rewrite <- (length_map (group_of cors thr col_list) reps).
    rewrite set_label_groups. unfold groups_of.
    rewrite map_app. reflexivity.
Qed.

Lemma columns_loop_groups (cols : list string) :
  forall (val : nat) (st st' : gstate) (reps : list nat),
  skipn val col_list = cols ->
  group_labels_with_columns st = groups_of reps ->
  group_label st = length reps ->
  Forall (fun r => r < val) reps ->
  columns_loop data cors thr col_list val cols st = Ok st' ->
  group_labels_with_columns st'
  = groups_of (founders (above cors thr) (seq val (length cols)) reps).
Proof.
  induction cols as [|col rest IH]; simpl; intros val st st' reps Hs Hg Hl Hr H.
  - injection H as <-. assumption.
  - inv_bind H.
    destruct (skipn_cons_inv EmptyString _ _ _ _ Hs) as (Hval & Hcol & Hrest).
    rewrite Hcol in Ha.
    destruct (visit_groups _ _ _ _ Hval Hg Hl Hr Ha) as [Hg' Hl'].
    destruct (existsb (fun r => above cors thr r val) reps).
    + eapply IH; eauto.
      eapply Forall_impl; [|exact Hr]. simpl; intros; lia.
    + eapply IH; eauto.
      apply Forall_app. split.
      * eapply Forall_impl; [|exact Hr]. simpl; intros; lia.
      * constructor; [lia | constructor].
Qed.

End Refinement.

(** Whenever [group_columns] returns, its group assignment lists, under
    ['Group k'], the [k]-th representative followed by the columns absorbed
    on its turn. *)
Lemma group_columns_groups (data : dataset) (cors : matrix) (thr : float)
    (dg : list grouped_row) (g : group_assignment) :
  unique_columns data ->
  group_columns data cors thr = Ok (dg, g) ->
  g = label_groups
        (map (group_of cors thr (columns_of data)) (reps_of data cors thr)).
Proof.
  intros Hnd H. unfold group_columns in H.
  inv_bind H. apply index_Ok in Ha.
  destruct data as [|row0 rest]; [discriminate|]. simpl in Ha.
  injection Ha as <-. inv_bind H. injection H as <- <-.
  unfold reps_of. simpl columns_of.
  eapply columns_loop_groups with (reps := []); eauto; reflexivity.
Qed.

(** ** Representatives *)

Section Founders.

Variable abv : nat -> nat -> bool.

Lemma existsb_false_Forall (reps : list nat) (v : nat) :
  existsb (fun r => abv r v) reps = false ->
  Forall (fun r => abv r v = false) reps.
Proof.
  induction reps as [|r reps IH]; simpl; intros H; constructor;
    apply orb_false_iff in H; tauto.
Qed.

Lemma ForallOrdPairs_snoc {A : Type} (R : A -> A -> Prop) (l : list A) (x : A) :
  ForallOrdPairs R l -> Forall (fun y => R y x) l ->
  ForallOrdPairs R (l ++ [x]).
Proof.
  induction 1 as [|a l Ha Hl IH]; simpl; intros Hx.
  - repeat constructor.
  - inversion Hx; subst. constructor; auto.
    apply Forall_app. split; auto.
Qed.

Lemma founders_incl (vals : list nat) :
  forall reps r, In r reps -> In r (founders abv vals reps).
Proof.
  induction vals as [|v vals IH]; simpl; intros reps r Hr; auto.
  destruct (existsb (fun r0 => abv r0 v) reps); apply IH; auto.
  apply in_or_app; auto.
Qed.

Lemma founders_in (vals : list nat) :
  forall reps r, In r (founders abv vals reps) -> In r reps \/ In r vals.
Proof.
  induction vals as [|v vals IH]; simpl; intros reps r Hr; auto.
  destruct (existsb (fun r0 => abv r0 v) reps).
  - apply IH in Hr. tauto.
  - apply IH in Hr. rewrite in_app_iff in Hr. simpl in Hr. tauto.
Qed.

(** No representative absorbed a later representative. *)
Lemma founders_passed_over (n : nat) :
  forall val reps,
  Forall (fun r => r < val) reps ->
  ForallOrdPairs (passed_over abv) reps ->
  ForallOrdPairs (passed_over abv) (founders abv (seq val n) reps).
Proof.
  induction n as [|n IH]; simpl; intros val reps Hlt Hord; auto.
  destruct (existsb (fun r => abv r val) reps) eqn:E.
  - apply IH; auto. eapply Forall_impl; [|exact Hlt]. simpl; intros; lia.
  - apply IH.
    + apply Forall_app. split.
      * eapply Forall_impl; [|exact Hlt]. simpl; intros; lia.
      * repeat constructor.
    + apply ForallOrdPairs_snoc; auto.
      apply existsb_false_Forall in E.
      rewrite Forall_forall in *. intros r Hr. split; auto.
Qed.

(** Every scanned column founds a group or was absorbed by an earlier
    representative. *)
Lemma founders_cover (n : nat) :
  forall val reps v,
  Forall (fun r => r < val) reps ->
  In v (seq val n) ->
  In v (founders abv (seq val n) reps)
  \/ exists r, In r (founders abv (seq val n) reps)
               /\ r < v /\ abv r v = true.
Proof.
  induction n as [|n IH]; simpl; intros val reps v Hlt Hv; [contradiction|].
  assert (Hlt' : Forall (fun r => r < S val) reps).
  { eapply Forall_impl; [|exact Hlt]. simpl; intros; lia. }
  destruct Hv as [->|Hv].
  - destruct (existsb (fun r => abv r v) reps) eqn:E.
    + right. apply existsb_exists in E as (r & Hr & Hab).
      exists r. rewrite Forall_forall in Hlt.
      repeat split; auto. now apply founders_incl.
    + left. apply founders_incl, in_or_app. simpl; auto.
  - destruct (existsb (fun r => abv r val) reps); apply IH; auto.
    apply Forall_app. split; auto.
Qed.

Lemma founders_distinct_pass (n : nat) (r r' : nat) :
  In r (founders abv (seq 0 n) []) ->
  In r' (founders abv (seq 0 n) []) ->
  r' < r -> abv r' r = false.
Proof.
  intros Hr Hr' Hlt.
  pose proof (founders_passed_over n 0 [] (Forall_nil _) (FOP_nil _)) as H.
  destruct (ForallOrdPairs_In H _ _ Hr' Hr) as [Heq|[[_ Hp]|[Hp _]]];
    auto; lia.
Qed.

End Founders.

Lemma reps_of_lt (data : dataset) (cors : matrix) (thr : float) (r : nat) :
  In r (reps_of data cors thr) -> r < length (columns_of data).
Proof.
  intros H. apply founders_in in H as [[]|H]. apply in_seq in H. lia.
Qed.

(** ** Groups and their representatives *)

Lemma above_entry (cors : matrix) (thr : float) (i j : nat) (c : float) :
  entry cors i j = Some c -> above cors thr i j = float_gt c thr.
Proof.
  unfold entry, above. destruct (nth_error cors i); [|discriminate].
  now intros ->.
Qed.

Section GroupsOfData.

Variable data : dataset.
Variable cors : matrix.
Variable thr : float.
Variable dg : list grouped_row.
Variable g : group_assignment.
Hypothesis data_unique : unique_columns data.
Hypothesis run : group_columns data cors thr = Ok (dg, g).

Let cols := columns_of data.

(** Every non-empty member list is the group of a representative. *)
Lemma group_in (name : string) (members : list string) :
  In (name, members) g -> members <> [] ->
  exists r, In r (reps_of data cors thr)
            /\ members = group_of cors thr cols r.
Proof.
  intros Hin Hne.
  rewrite (group_columns_groups _ _ _ _ _ data_unique run) in Hin.
  destruct (reps_of data cors thr) as [|r0 reps] eqn:E.
  - simpl in Hin. destruct Hin as [Hin|[]]. congruence.
  - apply in_label_groups in Hin; [|discriminate].
    apply in_map_iff in Hin as (r & Hr & Hin). eauto.
Qed.

(** The group whose first member is column [i] holds, after it, exactly
    the columns absorbed on the turn of [i]. *)
Lemma group_of_representative (i : nat) (ci name : string)
    (members : list string) :
  nth_error cols i = Some ci ->
  In (name, ci :: members) g ->
  In i (reps_of data cors thr) /\ members = absorbed cors thr cols i.
Proof.
  intros Hi Hin.
  destruct (group_in _ _ Hin) as (r & Hr & Hm); [discriminate|].
  unfold group_of in Hm. injection Hm as Hc Hm.
  assert (r = i).
  { apply (col_name_inj cols); auto.
    - now apply reps_of_lt in Hr.
    - apply nth_error_Some. congruence.
    - rewrite <- Hc. unfold col_name. symmetry. now apply nth_error_nth. }
  subst r. auto.
Qed.

End GroupsOfData.

(** * Properties of the specification *)

Ltac refute_same_group :=
  let name := fresh "name" in
  let members := fresh "members" in
  let Hin := fresh "Hin" in
  let Ha := fresh "Ha" in
  let Hc := fresh "Hc" in
  intros (name & members & Hin & Ha & Hc); simpl in Hin;
  repeat (destruct Hin as [Hin|Hin];
          [ injection Hin as <- <-; simpl in Ha, Hc; intuition discriminate | ]);
  contradiction.

Ltac prove_NoDup :=
  repeat (constructor; [simpl; intuition discriminate|]); constructor.

(** ** Partition (C1) *)

(** X7.  No column is left out and no foreign name comes in: the member lists
    hold the column names and nothing else. *)
Lemma group_columns_covers (data : dataset) (cors : matrix) (thr : float)
    (dg : list grouped_row) (g : group_assignment) :
  unique_columns data ->
  group_columns data cors thr = Ok (dg, g) ->
  forall c, In c (concat (Dict.values g)) <-> In c (columns_of data).
Proof.
  intros Hnd Hrun c.
  rewrite (group_columns_groups _ _ _ _ _ Hnd Hrun).
  rewrite concat_values_label_groups. split.
  - intros Hin. apply in_concat in Hin as (m & Hm & Hin).
    apply in_map_iff in Hm as (r & <- & Hr).
    pose proof (reps_of_lt _ _ _ _ Hr) as Hlt.
    destruct Hin as [<-|Hin].
    + now apply nth_In.
    + apply in_absorbed_inv in Hin as (j & Hj & -> & _). apply nth_In. lia.
  - intros Hin. apply (In_nth _ _ EmptyString) in Hin as (v & Hv & <-).
    fold (col_name (columns_of data) v).
    destruct (founders_cover (above cors thr)
                (length (columns_of data)) 0 [] v (Forall_nil _))
      as [Hr|(r & Hr & Hrv & Hab)].
    { apply in_seq. lia. }
    + apply in_concat. exists (group_of cors thr (columns_of data) v).
      split; [now apply in_map | now left].
    + apply in_concat. exists (group_of cors thr (columns_of data) r).
      split; [now apply in_map|]. right.
      apply in_absorbed; auto.
Qed.

(** C1.  The member lists of the returned assignment are not always a
    partition of the column names.  On [overlap], whose computed
    correlations are 0 between [a] and [b] and about 0.707 between [c] and
    each of them, threshold 0.5 makes both representatives [a] and [b]
    append [c]: the inner loop does not test whether a column is already
    grouped, so [c] is listed in two groups. *)
Theorem overlap_lists_column_twice :
  exists m dg g,
    correlation_matrix Pearson.pearson overlap = Ok m
    /\ group_columns overlap m 0.5 = Ok (dg, g)
    /\ g = [("Group 1", ["a"; "c"]); ("Group 2", ["b"; "c"])]
    /\ ~ partitions g (columns_of overlap).
Proof.
  do 3 eexists. split; [vm_compute; reflexivity|].
  split; [vm_compute; reflexivity|].
  split; [reflexivity|].
  intros [Hnd _]. simpl in Hnd.
  inversion Hnd as [|? ? _ Hnd1]; subst.
  inversion Hnd1 as [|? ? Hc _]; subst.
  apply Hc. simpl. auto.
Qed.

(** ** Absorbed columns do not scan (C2) *)

(** C2 as stated fails on [chain]: [a]-[b] and [b]-[c] correlate at about
    0.707, [a]-[c] at 0, threshold 0.5; [a] is a representative, yet [a] and
    [c] end in different groups. *)
Lemma chain_keeps_a_and_c_apart :
  exists m dg g cab cbc cac,
    correlation_matrix Pearson.pearson chain = Ok m
    /\ group_columns chain m 0.5 = Ok (dg, g)
    /\ representative g "a"
    /\ entry m 0 1 = Some cab /\ float_gt cab 0.5 = true
    /\ entry m 1 2 = Some cbc /\ float_gt cbc 0.5 = true
    /\ entry m 0 2 = Some cac /\ float_gt cac 0.5 = false
    /\ ~ same_group g "a" "c".
Proof.
  do 6 eexists. split; [vm_compute; reflexivity|].
  split; [vm_compute; reflexivity|].
  split; [exists "Group 1", ["b"]; simpl; auto|].
  repeat (split; [vm_compute; reflexivity|]).
  refute_same_group.
Qed.

(** C2, amended.  Let [A], [B], [C] be columns at positions [i < j < k] with
    [A] a representative.  If the correlation of [A] and [B] is above the
    threshold and that of [A] and [C] is not, then [B] is in the group of
    [A] and no group lists both [A] and [C], whatever the correlation of
    [B] and [C]: an absorbed column is skipped and absorbs nothing. *)
Theorem absorbed_column_pulls_nothing
    (data : dataset) (cors : matrix) (thr : float)
    (dg : list grouped_row) (g : group_assignment)
    (i j k : nat) (A B C : string) (cAB cAC : float) :
  unique_columns data ->
  group_columns data cors thr = Ok (dg, g) ->
  i < j -> j < k ->
  nth_error (columns_of data) i = Some A ->
  nth_error (columns_of data) j = Some B ->
  nth_error (columns_of data) k = Some C ->
  representative g A ->
  entry cors i j = Some cAB -> float_gt cAB thr = true ->
  entry cors i k = Some cAC -> float_gt cAC thr = false ->
  same_group g A B /\ ~ same_group g A C.
Proof.
  intros Hnd Hrun Hij Hjk HA HB HC (name & members & Hrep) HeB HgB HeC HgC.
  destruct (group_of_representative _ _ _ _ _ Hnd Hrun _ _ _ _ HA Hrep)
    as [Hi Hm].
  assert (Hlen : forall n c, nth_error (columns_of data) n = Some c ->
                 n < length (columns_of data) /\ c = col_name (columns_of data) n).
  { intros n c Hn. split; [apply nth_error_Some; congruence|].
    symmetry. now apply nth_error_nth. }
  destruct (Hlen _ _ HA) as [HiL ->], (Hlen _ _ HB) as [HjL ->],
           (Hlen _ _ HC) as [HkL ->].
  split.
  - exists name, (col_name (columns_of data) i :: members).
    split; [assumption|]. split; [now left|]. right. rewrite Hm.
    apply in_absorbed; auto. split; auto.
    now rewrite (above_entry _ _ _ _ _ HeB).
  - intros (name' & m' & Hin' & Ha' & Hc').
    destruct (group_in _ _ _ _ _ Hnd Hrun _ _ Hin') as (r & Hr & ->).
    { destruct m'; [contradiction | discriminate]. }
    assert (r = i).
    { destruct Ha' as [Ha'|Ha'].
      - apply col_name_inj in Ha'; auto. now apply reps_of_lt in Hr.
      - apply in_absorbed in Ha' as [Hri Hab]; auto.
        rewrite (founders_distinct_pass _ _ _ _ Hi Hr Hri) in Hab.
        discriminate. }
    subst r. destruct Hc' as [Hc'|Hc'].
    + apply col_name_inj in Hc'; auto. lia.
    + apply in_absorbed in Hc' as [_ Hab]; auto.
      rewrite (above_entry _ _ _ _ _ HeC) in Hab. congruence.
Qed.

Lemma absorbed_column_pulls_nothing_witness :
  same_group [("Group 1", ["a"; "b"]); ("Group 2", ["c"])] "a" "b"
  /\ ~ same_group [("Group 1", ["a"; "b"]); ("Group 2", ["c"])] "a" "c".
Proof.
  refine (absorbed_column_pulls_nothing chain (cors_of chain) 0.5
            _ _ 0 1 2 "a" "b" "c" _ _ _ _ _ _ _ _ _ _ _ _ _ _).
  - unfold unique_columns. simpl. prove_NoDup.
  - vm_compute. reflexivity.
  - lia.
  - lia.
  - reflexivity.
  - reflexivity.
  - reflexivity.
  - exists "Group 1", ["b"]. simpl. auto.
  - vm_compute. reflexivity.
  - vm_compute. reflexivity.
  - vm_compute. reflexivity.
  - vm_compute. reflexivity.
Defined.

(** ** Scenarios A and B (C7, C3) *)

(** C7.  Scenario A: on [scenario] with its computed matrix and threshold
    0.9, [group_columns] returns the group assignment
    [{"Group 1": ["a","b"], "Group 2": ["c"]}] and the grouped dataset
    [[{"Group 1":1,"Group 2":10}, {"Group 1":2,"Group 2":1},
      {"Group 1":3,"Group 2":5}]]. *)
Theorem scenario_A :
  exists m,
    correlation_matrix Pearson.pearson scenario = Ok m
    /\ group_columns scenario m 0.9
       = Ok ([ [("Group 1", Val (PyInt 1)); ("Group 2", Val (PyInt 10))];
               [("Group 1", Val (PyInt 2)); ("Group 2", Val (PyInt 1))];
               [("Group 1", Val (PyInt 3)); ("Group 2", Val (PyInt 5))] ],
             [("Group 1", ["a"; "b"]); ("Group 2", ["c"])]).
Proof.
  eexists. split; vm_compute; reflexivity.
Qed.

(** C3 as stated fails: at threshold 0.999999 the groups of [scenario] are
    not three singletons; [a] and [b] share a group. *)
Lemma scenario_B_not_singletons :
  exists m dg g,
    correlation_matrix Pearson.pearson scenario = Ok m
    /\ group_columns scenario m 0.999999 = Ok (dg, g)
    /\ ~ singleton_groups g (columns_of scenario)
    /\ same_group g "a" "b".
Proof.
  do 3 eexists. split; [vm_compute; reflexivity|].
  split; [vm_compute; reflexivity|].
  split; [unfold singleton_groups; simpl; discriminate|].
  exists "Group 1", ["a"; "b"]. simpl. auto.
Qed.

(** C3, amended.  Scenario B: the correlation of [a] and [b] is exactly 1.0,
    which is above 0.999999, so threshold 0.999999 gives the two groups of
    scenario A; the three singleton groups appear at threshold 1.0. *)
Theorem scenario_B :
  exists m dg dg',
    correlation_matrix Pearson.pearson scenario = Ok m
    /\ entry m 0 1 = Some 1%float
    /\ group_columns scenario m 0.999999
       = Ok (dg, [("Group 1", ["a"; "b"]); ("Group 2", ["c"])])
    /\ group_columns scenario m 1
       = Ok (dg', [("Group 1", ["a"]); ("Group 2", ["b"]); ("Group 3", ["c"])]).
Proof.
  do 3 eexists. repeat split; vm_compute; reflexivity.
Qed.

(** ** NaN correlations (C8) *)

(** C8.  A NaN entry [cors[i][j]] never puts column [j] in the group founded
    at column [i]: NaN fails the comparison with every threshold, so [j] is
    not among the members that follow the representative [i]. *)
Theorem nan_entry_never_absorbs
    (data : dataset) (cors : matrix) (thr : float)
    (dg : list grouped_row) (g : group_assignment)
    (i j : nat) (ci cj : string) (c : float)
    (name : string) (members : list string) :
  unique_columns data ->
  group_columns data cors thr = Ok (dg, g) ->
  nth_error (columns_of data) i = Some ci ->
  nth_error (columns_of data) j = Some cj ->
  entry cors i j = Some c -> is_nan c = true ->
  In (name, ci :: members) g ->
  ~ In cj members.
Proof.
  intros Hnd Hrun Hi Hj He Hnan Hin Hmem.
  destruct (group_of_representative _ _ _ _ _ Hnd Hrun _ _ _ _ Hi Hin)
    as [_ ->].
  rewrite <- (nth_error_nth _ _ EmptyString Hj) in Hmem.
  apply in_absorbed in Hmem as [_ Hab]; auto.
  - rewrite (above_entry _ _ _ _ _ He), float_gt_nan in Hab by assumption.
    discriminate.
  - apply nth_error_Some. congruence.
Qed.

Lemma nan_entry_never_absorbs_witness :
  entry (cors_of flat) 0 1 = Some nan /\ ~ In "k" ["b"].
Proof.
  split; [vm_compute; reflexivity|].
  refine (nan_entry_never_absorbs flat (cors_of flat) 0.9 _ _ 0 1 "a" "k"
            nan "Group 1" ["b"] _ _ _ _ _ _ _).
  - unfold unique_columns. simpl. prove_NoDup.
  - vm_compute. reflexivity.
  - reflexivity.
  - reflexivity.
  - vm_compute. reflexivity.
  - reflexivity.
  - simpl. left. reflexivity.
Defined.

(** A column whose correlations are all NaN, as for a constant column,
    is alone in its group and in no other. *)
Lemma nan_column_is_alone
    (data : dataset) (cors : matrix) (thr : float)
    (dg : list grouped_row) (g : group_assignment)
    (z : nat) (cz : string) :
  unique_columns data ->
  group_columns data cors thr = Ok (dg, g) ->
  nth_error (columns_of data) z = Some cz ->
  (forall j, above cors thr z j = false) ->
  (forall r, above cors thr r z = false) ->
  forall name members,
    In (name, members) g -> In cz members -> members = [cz].
Proof.
  intros Hnd Hrun Hz Hrow Hcol name members Hin Hmem.
  destruct (group_in _ _ _ _ _ Hnd Hrun _ _ Hin) as (r & Hr & ->).
  { destruct members; [contradiction | discriminate]. }
  assert (HzL : z < length (columns_of data))
    by (apply nth_error_Some; congruence).
  rewrite <- (nth_error_nth _ _ EmptyString Hz) in *.
  fold (col_name (columns_of data) z) in *.
  destruct Hmem as [Hmem|Hmem].
  - apply col_name_inj in Hmem; auto; [|now apply reps_of_lt in Hr].
    subst r. unfold group_of, absorbed.
    replace (filter (above cors thr z) _) with (@nil nat); [reflexivity|].
    symmetry. induction (seq (S z) _) as [|x l IH]; simpl; auto.
    now rewrite Hrow.
  - apply in_absorbed in Hmem as [_ Hab]; auto. rewrite Hcol in Hab.
    discriminate.
Qed.

(** ** Group count and threshold (C4) *)

Lemma above_mono (cors : matrix) (t1 t2 : float) (i j : nat) :
  (t1 <? t2)%float = true ->
  above cors t2 i j = true -> above cors t1 i j = true.
Proof.
  unfold above. intros Ht.
  destruct (nth_error cors i) as [r|]; auto.
  destruct (nth_error r j) as [c|]; auto.
  now apply float_gt_trans.
Qed.

(** With at most three columns, absorbing more never yields more
    representatives. *)
Lemma founders_mono_3 (abv1 abv2 : nat -> nat -> bool) (n : nat) :
  (forall i j, abv2 i j = true -> abv1 i j = true) ->
  n <= 3 ->
  length (founders abv1 (seq 0 n) []) <= length (founders abv2 (seq 0 n) []).
Proof.
  intros H Hn.
  pose proof (H 0 1) as H01. pose proof (H 0 2) as H02.
  pose proof (H 1 2) as H12.
  destruct n as [|[|[|[|n]]]]; try lia; simpl; try lia;
    destruct (abv1 0 1), (abv2 0 1), (abv1 0 2), (abv2 0 2),
             (abv1 1 2), (abv2 1 2); simpl; try lia;
    try (specialize (H01 eq_refl); discriminate);
    try (specialize (H02 eq_refl); discriminate);
    try (specialize (H12 eq_refl); discriminate).
Qed.

(** C4 as stated fails on [four]: the computed correlations of [q] are 1/3
    with [p] and 2/3 with [r] and [s], the other pairs are uncorrelated.
    At threshold 0.5 there are two groups ([p] alone, [q] with [r] and [s]);
    at the lower threshold 0.1 [p] absorbs [q], which no longer scans, and
    [r] and [s] each found a group: three groups. *)
Lemma four_more_groups_at_lower_threshold :
  exists m dg1 g1 dg2 g2,
    correlation_matrix Pearson.pearson four = Ok m
    /\ (0.1 <? 0.5)%float = true
    /\ group_columns four m 0.1 = Ok (dg1, g1)
    /\ group_columns four m 0.5 = Ok (dg2, g2)
    /\ length g1 = 3 /\ length g2 = 2
    /\ ~ length g1 <= length g2.
Proof.
  do 5 eexists. split; [vm_compute; reflexivity|].
  split; [reflexivity|].
  split; [vm_compute; reflexivity|].
  split; [vm_compute; reflexivity|].
  simpl. repeat split; lia.
Qed.

(** C4, amended.  For a dataset with at most three columns and thresholds
    [t1 < t2], the number of groups at [t1] is at most the number at [t2].
    (With four columns or more the count can grow as the threshold
    falls.) *)
Theorem group_count_monotone_up_to_three_columns
    (data : dataset) (cors : matrix) (t1 t2 : float)
    (dg1 dg2 : list grouped_row) (g1 g2 : group_assignment) :
  unique_columns data ->
  length (columns_of data) <= 3 ->
  (t1 <? t2)%float = true ->
  group_columns data cors t1 = Ok (dg1, g1) ->
  group_columns data cors t2 = Ok (dg2, g2) ->
  length g1 <= length g2.
Proof.
  intros Hnd Hn Ht H1 H2.
  rewrite (group_columns_groups _ _ _ _ _ Hnd H1).
  rewrite (group_columns_groups _ _ _ _ _ Hnd H2).
  rewrite !length_label_groups, !length_map. unfold reps_of.
  pose proof (founders_mono_3 (above cors t1) (above cors t2) _
                (fun i j => above_mono cors t1 t2 i j Ht) Hn).
  lia.
Qed.

Lemma group_count_monotone_up_to_three_columns_witness :
  length [("Group 1", ["a"; "b"]); ("Group 2", ["c"])]
  <= length [("Group 1", ["a"]); ("Group 2", ["b"]); ("Group 3", ["c"])].
Proof.
  refine (group_count_monotone_up_to_three_columns scenario (cors_of scenario)
            0.9 1 _ _ _ _ _ _ _ _ _).
  - unfold unique_columns. simpl. prove_NoDup.
  - simpl. lia.
  - reflexivity.
  - vm_compute. reflexivity.
  - vm_compute. reflexivity.
Defined.

(** ** Exceptions of [group_columns] (C5) *)

Section GroupColumnsExceptions.

Variable data : dataset.
Variable cors : matrix.
Variable thr : float.
Variable col_list : list string.

Lemma scan_cases (val : nat) (name : string) (g : group_assignment)
    (l : list string) (j : nat) :
  Dict.find g name = Some l ->
  match scan cors thr col_list val name g j with
  | Ok g' => exists l', Dict.find g' name = Some l'
  | Raise e => e = IndexError
  end.
Proof.
  intros Hl. unfold scan.
  destruct (index cors val) as [r|e] eqn:E1; simpl;
    [|now apply index_Raise in E1].
  destruct (index r j) as [c|e] eqn:E2; simpl;
    [|now apply index_Raise in E2].
  destruct (float_gt c thr); [|eauto].
  destruct (index col_list j) as [s|e] eqn:E3; simpl;
    [|now apply index_Raise in E3].
  unfold Dict.get. rewrite Hl. simpl. rewrite find_set_same. eauto.
Qed.




Hypothesis rows_long : Forall (fun r : row => length col_list <= length r) data.
Hypothesis cors_tall : length col_list <= length cors.
Hypothesis cors_wide : Forall (fun r => length col_list <= length r) cors.

Lemma foldM_scan_total (val : nat) (name : string) (js : list nat) :
  val < length col_list ->
  Forall (fun j => j < length col_list) js ->
  forall g l, Dict.find g name = Some l ->
  exists g', foldM (scan cors thr col_list val name) g js = Ok g'.
Proof.
  intros Hval. induction 1 as [|j js Hj Hjs IH]; simpl; intros g l Hl; eauto.
  pose proof (scan_cases val name g l j Hl) as Hc.
  destruct (scan cors thr col_list val name g j) as [g'|e] eqn:E; simpl.
  - destruct Hc as [l' Hl']. eauto.
  - exfalso. unfold scan in E.
    destruct (index_lt cors val) as [r Hr]; [lia|]. rewrite Hr in E.
    simpl in E.
    assert (Hrl : length col_list <= length r).
    { rewrite Forall_forall in cors_wide. apply cors_wide.
      apply index_Ok in Hr. eapply nth_error_In; eauto. }
    destruct (index_lt r j) as [c Hc']; [lia|]. rewrite Hc' in E. simpl in E.
    destruct (float_gt c thr); [|discriminate].
    destruct (index_lt col_list j Hj) as [s Hs]. rewrite Hs in E. simpl in E.
    unfold Dict.get in E. rewrite Hl in E. discriminate.
Qed.

Lemma visit_total (st : gstate) (val : nat) (col : string) :
  val < length col_list ->
  exists st', visit data cors thr col_list st val col = Ok st'.
Proof.
  intros Hval. unfold visit.
  destruct (negb (grouped (group_labels_with_columns st) col)); eauto.
  destruct (column_total data val) as [vals Hvals].
  { eapply Forall_impl; [|exact rows_long]. simpl; intros; lia. }
  rewrite Hvals. simpl.
  set (name := name_of_group (S (group_label st))).
  destruct (foldM_scan_total val name
              (seq (S val) (length col_list - S val)) Hval)
    with (g := Dict.set (group_labels_with_columns st) name [col])
         (l := [col]) as [g' Hg'].
  - apply Forall_forall. intros j Hj. apply in_seq in Hj. lia.
  - apply find_set_same.
  - rewrite Hg'. simpl. eauto.
Qed.

Lemma columns_loop_total (cols : list string) :
  forall val st,
  val + length cols <= length col_list ->
  exists st', columns_loop data cors thr col_list val cols st = Ok st'.
Proof.
  induction cols as [|col rest IH]; simpl; intros val st Hlen; eauto.
  destruct (visit_total st val col) as [st' Hst']; [lia|].
  rewrite Hst'. simpl. apply IH. lia.
Qed.

End GroupColumnsExceptions.

Lemma length_columns_of (row0 : row) (rest : dataset) :
  length (columns_of (row0 :: rest)) = length row0.
Proof. simpl. unfold Dict.keys. apply length_map. Qed.




(** ** [correlation_matrix]: shape and exceptions (C6) *)

Section CorrelationMatrixFacts.

Variable corrcoef01 : list num -> list num -> float.

Let cm := correlation_matrix corrcoef01.

(** The entries of the returned matrix. *)
Lemma correlation_matrix_entries (data : dataset) (m : matrix) :
  cm data = Ok m ->
  let n := length (columns_of data) in
  length m = n
  /\ forall i, i < n ->
     exists r, nth_error m i = Some r /\ length r = n
     /\ forall j, j < n ->
        exists x y, column data i = Ok x /\ column data j = Ok y
                    /\ nth_error r j = Some (corrcoef01 x y).
Proof.
  unfold cm, correlation_matrix. intros H.
  inv_bind H. apply index_Ok in Ha.
  destruct data as [|row0 rest]; [discriminate|]. injection Ha as <-.
  rewrite length_columns_of. simpl.
  split; [apply mapM_Ok_length in H; now rewrite length_seq in H|].
  intros i Hi.
  assert (Hseq : forall k, k < length row0 ->
                 nth_error (seq 0 (length row0)) k = Some k).
  { intros k Hk. rewrite (nth_error_nth' _ 0) by (now rewrite length_seq).
    now rewrite seq_nth. }
  destruct (mapM_Ok_nth _ _ _ H i i (Hseq i Hi)) as (r & Hr & Hrow).
  exists r. split; [assumption|].
  split; [apply mapM_Ok_length in Hrow; now rewrite length_seq in Hrow|].
  intros j Hj.
  destruct (mapM_Ok_nth _ _ _ Hrow j j (Hseq j Hj)) as (c & Hc & Hcor).
  unfold correlation in Hcor. inv_bind Hcor. inv_bind Hcor.
  injection Hcor as <-. eauto.
Qed.

End CorrelationMatrixFacts.

(** C6 as stated fails.  [mixed] has rows with different key sets and a
    matrix is returned for it; a dataset whose row has no columns gives the
    empty matrix; and the empty dataset ends in [IndexError], not in
    [DataShapeError]. *)
Lemma correlation_matrix_does_not_check_shape :
  (~ uniformly_keyed mixed
   /\ exists m, correlation_matrix Pearson.pearson mixed = Ok m)
  /\ correlation_matrix Pearson.pearson [[]] = Ok []
  /\ correlation_matrix Pearson.pearson [] = Raise IndexError.
Proof.
  split; [split|split].
  - intros H. inversion H as [|? ? _ H']; subst.
    inversion H' as [|? ? Hk _]; subst. discriminate Hk.
  - eexists. vm_compute. reflexivity.
  - reflexivity.
  - reflexivity.
Qed.

(** ** Only the strict upper triangle is read (C10) *)

Lemma nth_error_list_set_other {A : Type} (l : list A) (i k : nat) (v : A) :
  k <> i -> nth_error (list_set l i v) k = nth_error l k.
Proof.
  revert i k. induction l as [|x l IH]; intros [|i] [|k] H; simpl; auto;
    try congruence.
Qed.

Lemma nth_error_list_set_same {A : Type} (l : list A) (i : nat) (v x : A) :
  nth_error l i = Some x -> nth_error (list_set l i v) i = Some v.
Proof.
  revert i. induction l as [|y l IH]; intros [|i] H; simpl in *; auto;
    discriminate.
Qed.

(** Replacing an entry on or below the diagonal leaves the entries above
    it as they are. *)
Lemma entry_set_entry (cors : matrix) (i j : nat) (v : float)
    (val leftover : nat) :
  j <= i -> val < leftover ->
  (cors_val <- index (set_entry cors i j v) val ;; index cors_val leftover)
  = (cors_val <- index cors val ;; index cors_val leftover).
Proof.
  intros Hji Hlt. unfold set_entry.
  destruct (nth_error cors i) as [cors_i|] eqn:Ei; [|reflexivity].
  unfold index at 1 3.
  destruct (Nat.eq_dec val i) as [->|Hne].
  - rewrite (nth_error_list_set_same _ _ _ _ Ei), Ei. simpl.
    unfold index. rewrite nth_error_list_set_other by lia. reflexivity.
  - rewrite nth_error_list_set_other by assumption. reflexivity.
Qed.

Lemma scan_set_entry (cors : matrix) (thr : float) (col_list : list string)
    (i j : nat) (v : float) (val : nat) (name : string)
    (g : group_assignment) (leftover : nat) :
  j <= i -> val < leftover ->
  scan (set_entry cors i j v) thr col_list val name g leftover
  = scan cors thr col_list val name g leftover.
Proof.
  intros Hji Hlt. unfold scan.
  pose proof (entry_set_entry cors i j v val leftover Hji Hlt) as H.
  destruct (index (set_entry cors i j v) val) as [r'|e'];
    destruct (index cors val) as [r|e]; simpl in *.
  - now rewrite H.
  - now rewrite H.
  - now rewrite <- H.
  - congruence.
Qed.

Lemma columns_loop_set_entry (data : dataset) (cors : matrix) (thr : float)
    (col_list : list string) (i j : nat) (v : float) (cols : list string) :
  j <= i ->
  forall val st,
  columns_loop data (set_entry cors i j v) thr col_list val cols st
  = columns_loop data cors thr col_list val cols st.
Proof.
  intros Hji. induction cols as [|col rest IH]; simpl; intros val st;
    [reflexivity|].
  assert (Hv : visit data (set_entry cors i j v) thr col_list st val col
               = visit data cors thr col_list st val col).
  { unfold visit.
    destruct (negb (grouped (group_labels_with_columns st) col)); auto.
    destruct (column data val); simpl; auto.
    erewrite foldM_ext_in; [reflexivity|].
    intros s x Hx. apply in_seq in Hx. apply scan_set_entry; lia. }
  rewrite Hv. destruct (visit data cors thr col_list st val col); simpl; auto.
Qed.

(** C10.  Replacing an entry [cors[i][j]] with [j <= i], on the diagonal or
    below it, by any value changes neither the grouped dataset nor the
    group assignment, nor whether the call returns. *)
Theorem group_columns_reads_upper_triangle
    (data : dataset) (cors : matrix) (thr : float) (i j : nat) (v : float) :
  j <= i ->
  group_columns data (set_entry cors i j v) thr = group_columns data cors thr.
Proof.
  intros Hji. unfold group_columns.
  destruct (index data 0); simpl; auto.
  now rewrite columns_loop_set_entry.
Qed.

Lemma group_columns_reads_upper_triangle_witness :
  entry (set_entry (cors_of scenario) 1 0 0.5) 1 0 = Some 0.5%float
  /\ entry (cors_of scenario) 1 0 = Some 1%float
  /\ group_columns scenario (set_entry (cors_of scenario) 1 0 0.5) 0.9
     = group_columns scenario (cors_of scenario) 0.9.
Proof.
  split; [vm_compute; reflexivity|].
  split; [vm_compute; reflexivity|].
  apply (group_columns_reads_upper_triangle scenario (cors_of scenario)
           0.9 1 0 0.5).
  lia.
Defined.

(** * Further properties of [group_columns] *)

(** ** Labelled dicts *)

Lemma label_with_cons_eq {V : Type} (d : V) (vs : list V) :
  vs <> [] ->
  label_with d vs = combine (map name_of_group (seq 1 (length vs))) vs.
Proof. destruct vs; [congruence | reflexivity]. Qed.

Lemma label_groups_label_with (gs : list (list string)) :
  label_groups gs = label_with [] gs.
Proof. destruct gs; reflexivity. Qed.

Lemma set_label_with {V : Type} (d : V) (vs : list V) (v : V) :
  Dict.set (label_with d vs) (name_of_group (S (length vs))) v
  = label_with d (vs ++ [v]).
Proof.
  destruct vs as [|v0 vs]; [reflexivity|].
  rewrite !label_with_cons_eq by (destruct vs; discriminate).
  remember (v0 :: vs) as ws eqn:E. clear E v0 vs.
  rewrite length_app, Nat.add_1_r, seq_S, map_app.
  rewrite combine_app by (now rewrite length_map, length_seq).
  change (combine (map name_of_group [1 + length ws]) [v])
    with [(name_of_group (S (length ws)), v)].
  apply set_fresh.
  unfold Dict.keys. rewrite map_fst_combine by (now rewrite length_map, length_seq).
  intros Hin. apply in_map_iff in Hin as (k & Hk & Hin).
  apply name_of_group_inj in Hk. apply in_seq in Hin. lia.
Qed.

Lemma keys_label_with {V : Type} (d : V) (vs : list V) :
  Dict.keys (label_with d vs)
  = map name_of_group (seq 1 (Nat.max 1 (length vs))).
Proof.
  destruct vs as [|v vs]; [reflexivity|].
  rewrite label_with_cons_eq by discriminate.
  unfold Dict.keys. rewrite map_fst_combine by (now rewrite length_map, length_seq).
  reflexivity.
Qed.

Lemma find_combine_names {V : Type} (vs : list V) :
  forall a k v, nth_error vs k = Some v ->
  Dict.find (combine (map name_of_group (seq a (length vs))) vs)
            (name_of_group (a + k)) = Some v.
Proof.
  induction vs as [|v0 vs IH]; intros a k v Hk; [destruct k; discriminate|].
  cbn [length seq map combine Dict.find].
  destruct (String.eqb_spec (name_of_group (a + k)) (name_of_group a))
    as [E|E].
  - apply name_of_group_inj in E. assert (k = 0) by lia. subst k.
    simpl in Hk. congruence.
  - destruct k as [|k]; [exfalso; apply E; f_equal; lia|].
    simpl in Hk. replace (a + S k) with (S a + k) by lia. now apply IH.
Qed.

Lemma find_label_with {V : Type} (d : V) (vs : list V) (k : nat) (v : V) :
  nth_error vs k = Some v ->
  Dict.find (label_with d vs) (name_of_group (S k)) = Some v.
Proof.
  intros Hk. rewrite label_with_cons_eq by (intros ->; destruct k; discriminate).
  now apply (find_combine_names vs 1 k v).
Qed.

Lemma in_combine_nth {A B : Type} (l : list A) (l' : list B) (x : A) (y : B) :
  In (x, y) (combine l l') ->
  exists k, nth_error l k = Some x /\ nth_error l' k = Some y.
Proof.
  revert l'. induction l as [|a l IH]; intros [|b l'] H; simpl in H;
    try contradiction.
  destruct H as [H|H].
  - injection H as <- <-. exists 0. auto.
  - destruct (IH _ H) as (k & Hk1 & Hk2). exists (S k). auto.
Qed.

(** A listed group is the group of the [k]-th representative and carries
    the label ['Group k+1']. *)
Lemma in_label_groups_nth (gs : list (list string)) (name : string)
    (m : list string) :
  gs <> [] -> In (name, m) (label_groups gs) ->
  exists k, name = name_of_group (S k) /\ nth_error gs k = Some m.
Proof.
  intros Hne H. rewrite label_groups_cons_eq in H by assumption.
  apply in_combine_nth in H as (k & Hk1 & Hk2). exists k. split; auto.
  rewrite nth_error_map in Hk1.
  destruct (nth_error (seq 1 (length gs)) k) as [n|] eqn:E; [|discriminate].
  injection Hk1 as <-.
  assert (Hlt : k < length (seq 1 (length gs)))
    by (apply nth_error_Some; congruence).
  rewrite (nth_error_nth' _ 0 Hlt) in E. rewrite length_seq in Hlt.
  rewrite seq_nth in E by assumption. injection E as <-. reflexivity.
Qed.

(** ** More on representatives *)

Lemma founders_prefix (abv : nat -> nat -> bool) (vals : list nat) :
  forall reps, exists l, founders abv vals reps = reps ++ l.
Proof.
  induction vals as [|v vals IH]; simpl; intros reps.
  - exists []. now rewrite app_nil_r.
  - destruct (existsb (fun r => abv r v) reps); [apply IH|].
    destruct (IH (reps ++ [v])) as [l Hl]. exists (v :: l).
    now rewrite Hl, <- app_assoc.
Qed.

Lemma founders_length (abv : nat -> nat -> bool) (vals : list nat) :
  forall reps, length (founders abv vals reps) <= length reps + length vals.
Proof.
  induction vals as [|v vals IH]; simpl; intros reps; [lia|].
  destruct (existsb (fun r => abv r v) reps).
  - specialize (IH reps). lia.
  - specialize (IH (reps ++ [v])). rewrite length_app in IH. simpl in IH. lia.
Qed.

(** When nothing is above the threshold every scanned column founds a
    group. *)
Lemma founders_none (abv : nat -> nat -> bool) (vals : list nat) :
  (forall r v, abv r v = false) ->
  forall reps, founders abv vals reps = reps ++ vals.
Proof.
  intros H. induction vals as [|v vals IH]; simpl; intros reps.
  - now rewrite app_nil_r.
  - replace (existsb (fun r => abv r v) reps) with false.
    + now rewrite IH, <- app_assoc.
    + symmetry. induction reps as [|r reps IHr]; simpl; auto.
      now rewrite H.
Qed.

(** When the first column is above the threshold with every other one, it
    is the only representative. *)
Lemma founders_all (abv : nat -> nat -> bool) (vals : list nat) :
  (forall v, In v vals -> abv 0 v = true) ->
  founders abv vals [0] = [0].
Proof.
  induction vals as [|v vals IH]; simpl; intros H; [reflexivity|].
  rewrite (H v) by auto. simpl. apply IH. auto.
Qed.

(** The first column is always the first representative. *)
Lemma reps_of_head (data : dataset) (cors : matrix) (thr : float) :
  columns_of data <> [] ->
  exists l, reps_of data cors thr = 0 :: l.
Proof.
  intros Hne. unfold reps_of.
  destruct (columns_of data) as [|c cols]; [congruence|]. simpl.
  destruct (founders_prefix (above cors thr) (seq 1 (length cols)) [0])
    as [l Hl].
  exists l. exact Hl.
Qed.

Lemma reps_of_nil (data : dataset) (cors : matrix) (thr : float) :
  reps_of data cors thr = [] <-> columns_of data = [].
Proof.
  split.
  - intros H. destruct (columns_of data) as [|c cols] eqn:E; auto.
    destruct (reps_of_head data cors thr) as [l Hl]; congruence.
  - intros H. unfold reps_of. now rewrite H.
Qed.

Lemma map_col_name_seq (cols : list string) :
  map (col_name cols) (seq 0 (length cols)) = cols.
Proof.
  apply nth_error_ext. intros k.
  destruct (Nat.lt_ge_cases k (length cols)) as [Hk|Hk].
  - rewrite nth_error_map, (nth_error_nth' _ 0) by (now rewrite length_seq).
    rewrite seq_nth by assumption. simpl.
    unfold col_name. symmetry. now apply nth_error_nth'.
  - rewrite (proj2 (nth_error_None _ _)) by (now rewrite length_map, length_seq).
    symmetry. now apply nth_error_None.
Qed.

(** ** The grouped dataset *)

Lemma store_group_vals_rows (reps : list nat) (val : nat) (data : dataset) :
  forall vals,
  column data val = Ok vals ->
  store_group_vals (map (grouped_row_of reps) data)
    (name_of_group (S (length reps))) vals
  = map (grouped_row_of (reps ++ [val])) data.
Proof.
  unfold column, store_group_vals.
  induction data as [|r data IH]; simpl; intros vals H.
  - reflexivity.
  - inv_bind H. inv_bind H. injection H as <-. simpl. f_equal; [|now apply IH].
    unfold grouped_row_of. rewrite map_app. simpl.
    unfold cell_of at 3. rewrite Ha.
    rewrite <- (length_map (cell_of r) reps). apply set_label_with.
Qed.

Section RefinementRows.

Variable data : dataset.
Variable cors : matrix.
Variable thr : float.
Variable col_list : list string.
Hypothesis col_list_NoDup : NoDup col_list.

Lemma visit_rows (st st' : gstate) (reps : list nat) (val : nat) :
  val < length col_list ->
  group_labels_with_columns st
  = label_groups (map (group_of cors thr col_list) reps) ->
  group_label st = length reps ->
  Forall (fun r => r < val) reps ->
  data_grouped st = map (grouped_row_of reps) data ->
  visit data cors thr col_list st val (col_name col_list val) = Ok st' ->
  data_grouped st'
  = map (grouped_row_of
           (if existsb (fun r => above cors thr r val) reps
            then reps else reps ++ [val])) data.
Proof.
  intros Hval Hg Hl Hreps Hd H. unfold visit in H. rewrite Hg in H.
  rewrite grouped_label_groups in H by assumption.
  destruct (existsb (fun r => above cors thr r val) reps); simpl in H.
  - injection H as <-. assumption.
  - inv_bind H. inv_bind H. injection H as <-. simpl.
    rewrite Hd, Hl. now apply store_group_vals_rows.
Qed.

Lemma columns_loop_rows (cols : list string) :
  forall (val : nat) (st st' : gstate) (reps : list nat),
  skipn val col_list = cols ->
  group_labels_with_columns st
  = label_groups (map (group_of cors thr col_list) reps) ->
  group_label st = length reps ->
  Forall (fun r => r < val) reps ->
  data_grouped st = map (grouped_row_of reps) data ->
  columns_loop data cors thr col_list val cols st = Ok st' ->
  data_grouped st'
  = map (grouped_row_of (founders (above cors thr) (seq val (length cols)) reps))
        data.
Proof.
  induction cols as [|col rest IH]; simpl;
    intros val st st' reps Hs Hg Hl Hr Hd H.
  - injection H as <-. assumption.
  - inv_bind H.
    destruct (skipn_cons_inv EmptyString _ _ _ _ Hs) as (Hval & Hcol & Hrest).
    rewrite Hcol in Ha.
    pose proof (visit_rows _ _ _ _ Hval Hg Hl Hr Hd Ha) as Hd'.
    destruct (visit_groups data cors thr col_list col_list_NoDup
                _ _ _ _ Hval Hg Hl Hr Ha) as [Hg' Hl'].
    destruct (existsb (fun r => above cors thr r val) reps).
    + eapply IH; eauto.
      eapply Forall_impl; [|exact Hr]. simpl; intros; lia.
    + eapply IH; eauto.
      apply Forall_app. split.
      * eapply Forall_impl; [|exact Hr]. simpl; intros; lia.
      * constructor; [lia | constructor].
Qed.

End RefinementRows.

(** Whenever [group_columns] returns, each row of the grouped dataset holds,
    under ['Group k'], the cell of the [k]-th representative. *)
Lemma group_columns_rows (data : dataset) (cors : matrix) (thr : float)
    (dg : list grouped_row) (g : group_assignment) :
  unique_columns data ->
  group_columns data cors thr = Ok (dg, g) ->
  dg = map (grouped_row_of (reps_of data cors thr)) data.
Proof.
  intros Hnd H. unfold group_columns in H.
  inv_bind H. apply index_Ok in Ha.
  destruct data as [|row0 rest]; [discriminate|]. simpl in Ha.
  injection Ha as <-. inv_bind H. injection H as <- <-.
  unfold reps_of. simpl columns_of.
  eapply columns_loop_rows with (reps := []); eauto; reflexivity.
Qed.

Lemma rectangular_cell (data : dataset) (r : row) (i : nat) (c : string) :
  uniformly_keyed data -> In r data ->
  nth_error (columns_of data) i = Some c ->
  exists v, cell_at r i = Ok v /\ Dict.find r c = Some v.
Proof.
  intros Hk Hr Hc. unfold uniformly_keyed in Hk. rewrite Forall_forall in Hk.
  unfold cell_at, index. rewrite (Hk r Hr), Hc. simpl. unfold Dict.get.
  destruct (find_in_keys r c) as [v Hv].
  { rewrite (Hk r Hr). eapply nth_error_In; eauto. }
  rewrite Hv. eauto.
Qed.

(** X1.  The grouped dataset has one row per dataset row, and every grouped row
    has exactly the labels of the group assignment as its keys, in the
    same order. *)
Theorem grouped_dataset_shape (data : dataset) (cors : matrix) (thr : float)
    (dg : list grouped_row) (g : group_assignment) :
  unique_columns data ->
  group_columns data cors thr = Ok (dg, g) ->
  length dg = length data
  /\ Forall (fun grow : grouped_row => Dict.keys grow = Dict.keys g) dg.
Proof.
  intros Hnd Hrun.
  rewrite (group_columns_rows _ _ _ _ _ Hnd Hrun).
  rewrite (group_columns_groups _ _ _ _ _ Hnd Hrun).
  split; [apply length_map|].
  apply Forall_forall. intros grow Hin.
  apply in_map_iff in Hin as (r & <- & _).
  unfold grouped_row_of. rewrite label_groups_label_with, !keys_label_with.
  now rewrite !length_map.
Qed.

Lemma grouped_dataset_shape_witness :
  length
    [ [("Group 1", Val (PyInt 1)); ("Group 2", Val (PyInt 10))];
      [("Group 1", Val (PyInt 2)); ("Group 2", Val (PyInt 1))];
      [("Group 1", Val (PyInt 3)); ("Group 2", Val (PyInt 5))] ]
  = length scenario
  /\ Forall (fun grow : grouped_row =>
               Dict.keys grow
               = Dict.keys [("Group 1", ["a"; "b"]); ("Group 2", ["c"])])
       [ [("Group 1", Val (PyInt 1)); ("Group 2", Val (PyInt 10))];
         [("Group 1", Val (PyInt 2)); ("Group 2", Val (PyInt 1))];
         [("Group 1", Val (PyInt 3)); ("Group 2", Val (PyInt 5))] ].
Proof.
  refine (grouped_dataset_shape scenario (cors_of scenario) 0.9 _ _ _ _).
  - unfold unique_columns. simpl. prove_NoDup.
  - vm_compute. reflexivity.
Defined.

(** X2.  In every grouped row the value under a group's label is the value the
    dataset row holds for the group's first member: the representative's
    value is copied as it is, the other members contribute nothing. *)
Theorem grouped_value_is_representative_value
    (data : dataset) (cors : matrix) (thr : float)
    (dg : list grouped_row) (g : group_assignment)
    (name c : string) (members : list string) (i : nat) (r : row) :
  unique_columns data ->
  uniformly_keyed data ->
  group_columns data cors thr = Ok (dg, g) ->
  In (name, c :: members) g ->
  nth_error data i = Some r ->
  exists grow v,
    nth_error dg i = Some grow
    /\ Dict.find r c = Some v
    /\ Dict.find grow name = Some (Val v).
Proof.
  intros Hnd Hk Hrun Hin Hr.
  rewrite (group_columns_rows _ _ _ _ _ Hnd Hrun).
  rewrite (group_columns_groups _ _ _ _ _ Hnd Hrun) in Hin.
  destruct (reps_of data cors thr) as [|r0 reps'] eqn:E.
  { simpl in Hin. destruct Hin as [Hin|[]]. discriminate. }
  rewrite <- E in *.
  apply in_label_groups_nth in Hin as (k & -> & Hk');
    [|rewrite E; discriminate].
  rewrite nth_error_map in Hk'.
  destruct (nth_error (reps_of data cors thr) k) as [rep|] eqn:Hrep;
    [|discriminate].
  injection Hk' as Hc _.
  assert (Hlt : rep < length (columns_of data))
    by (eapply reps_of_lt, nth_error_In; eauto).
  destruct (rectangular_cell data r rep c Hk) as (v & Hv & Hf).
  { eapply nth_error_In; eauto. }
  { rewrite <- Hc. unfold col_name. now apply nth_error_nth'. }
  exists (grouped_row_of (reps_of data cors thr) r), v.
  split; [now rewrite nth_error_map, Hr|]. split; [assumption|].
  unfold grouped_row_of. apply find_label_with.
  rewrite nth_error_map, Hrep. simpl. unfold cell_of. now rewrite Hv.
Qed.

Lemma grouped_value_is_representative_value_witness :
  exists grow v,
    nth_error
      [ [("Group 1", Val (PyInt 1)); ("Group 2", Val (PyInt 10))];
        [("Group 1", Val (PyInt 2)); ("Group 2", Val (PyInt 1))];
        [("Group 1", Val (PyInt 3)); ("Group 2", Val (PyInt 5))] ] 1
    = Some grow
    /\ Dict.find [("a", PyInt 2); ("b", PyInt 4); ("c", PyInt 1)] "a" = Some v
    /\ Dict.find grow "Group 1" = Some (Val v).
Proof.
  refine (grouped_value_is_representative_value scenario (cors_of scenario)
            0.9 _ [("Group 1", ["a"; "b"]); ("Group 2", ["c"])]
            "Group 1" "a" ["b"] 1 _ _ _ _ _ _).
  - unfold unique_columns. simpl. prove_NoDup.
  - repeat constructor.
  - vm_compute. reflexivity.
  - simpl. auto.
  - reflexivity.
Defined.

(** X3.  The groups are labelled ['Group 1'], ['Group 2'], ... without gap or
    repetition, and there are at least one and at most as many groups as
    columns (one for a dataset without columns). *)
Theorem group_labels_are_contiguous
    (data : dataset) (cors : matrix) (thr : float)
    (dg : list grouped_row) (g : group_assignment) :
  unique_columns data ->
  group_columns data cors thr = Ok (dg, g) ->
  Dict.keys g = map name_of_group (seq 1 (length g))
  /\ 1 <= length g <= Nat.max 1 (length (columns_of data)).
Proof.
  intros Hnd Hrun.
  rewrite (group_columns_groups _ _ _ _ _ Hnd Hrun).
  rewrite label_groups_label_with, keys_label_with.
  rewrite <- label_groups_label_with, length_label_groups, !length_map.
  split; [reflexivity|].
  pose proof (founders_length (above cors thr)
                (seq 0 (length (columns_of data))) []) as H.
  rewrite length_seq in H. simpl in H. unfold reps_of. lia.
Qed.

Lemma group_labels_are_contiguous_witness :
  Dict.keys [("Group 1", ["a"; "b"]); ("Group 2", ["c"])]
  = map name_of_group (seq 1 2)
  /\ 1 <= 2 <= Nat.max 1 3.
Proof.
  refine (group_labels_are_contiguous scenario (cors_of scenario) 0.9 _
            [("Group 1", ["a"; "b"]); ("Group 2", ["c"])] _ _).
  - unfold unique_columns. simpl. prove_NoDup.
  - vm_compute. reflexivity.
Defined.

(** ** Shape of the groups *)

Lemma above_true_iff (cors : matrix) (thr : float) (i j : nat) :
  above cors thr i j = true
  <-> exists c, entry cors i j = Some c /\ float_gt c thr = true.
Proof.
  unfold above, entry. destruct (nth_error cors i) as [r|].
  - destruct (nth_error r j) as [c|].
    + split; [eauto | now intros (c' & [= <-] & H)].
    + split; [discriminate | now intros (c' & [=] & _)].
  - split; [discriminate | now intros (c' & [=] & _)].
Qed.

(** The groups of a run, in order, with the first representative. *)
Lemma group_columns_first (data : dataset) (cors : matrix) (thr : float)
    (dg : list grouped_row) (g : group_assignment) (c0 : string) :
  unique_columns data ->
  group_columns data cors thr = Ok (dg, g) ->
  nth_error (columns_of data) 0 = Some c0 ->
  hd_error g
  = Some (name_of_group 1, c0 :: absorbed cors thr (columns_of data) 0).
Proof.
  intros Hnd Hrun Hc.
  rewrite (group_columns_groups _ _ _ _ _ Hnd Hrun).
  destruct (reps_of_head data cors thr) as [l ->].
  { intros E. rewrite E in Hc. discriminate. }
  simpl. unfold group_of, col_name.
  now rewrite (nth_error_nth _ _ EmptyString Hc).
Qed.

(** X4.  ['Group 1'] is always led by the first column, and its other members
    are exactly the later columns whose correlation with the first column is
    above the threshold. *)
Theorem first_group_members (data : dataset) (cors : matrix) (thr : float)
    (dg : list grouped_row) (g : group_assignment) (c0 : string) :
  unique_columns data ->
  group_columns data cors thr = Ok (dg, g) ->
  nth_error (columns_of data) 0 = Some c0 ->
  exists members,
    hd_error g = Some (name_of_group 1, c0 :: members)
    /\ forall j cj, nth_error (columns_of data) j = Some cj ->
       (In cj members
        <-> 0 < j /\ exists c, entry cors 0 j = Some c
                               /\ float_gt c thr = true).
Proof.
  intros Hnd Hrun Hc.
  exists (absorbed cors thr (columns_of data) 0).
  split; [now apply group_columns_first with (dg := dg)|].
  intros j cj Hj.
  rewrite <- (nth_error_nth _ _ EmptyString Hj).
  fold (col_name (columns_of data) j).
  rewrite in_absorbed, above_true_iff; [reflexivity | assumption |].
  apply nth_error_Some. congruence.
Qed.

Lemma first_group_members_witness :
  exists members,
    hd_error [("Group 1", ["a"; "b"]); ("Group 2", ["c"])]
    = Some (name_of_group 1, "a" :: members)
    /\ forall j cj, nth_error (columns_of scenario) j = Some cj ->
       (In cj members
        <-> 0 < j /\ exists c, entry (cors_of scenario) 0 j = Some c
                               /\ float_gt c 0.9 = true).
Proof.
  refine (first_group_members scenario (cors_of scenario) 0.9 _ _ "a" _ _ _).
  - unfold unique_columns. simpl. prove_NoDup.
  - vm_compute. reflexivity.
  - reflexivity.
Defined.



Lemma ForallOrdPairs_lt_seq (a n : nat) : ForallOrdPairs lt (seq a n).
Proof.
  revert a. induction n as [|n IH]; intros a; simpl; constructor; auto.
  apply Forall_forall. intros x Hx. apply in_seq in Hx. lia.
Qed.

Lemma ForallOrdPairs_filter {A : Type} (R : A -> A -> Prop) (f : A -> bool)
    (l : list A) :
  ForallOrdPairs R l -> ForallOrdPairs R (filter f l).
Proof.
  induction 1 as [|a l Ha Hl IH]; simpl; [constructor|].
  destruct (f a); auto. constructor; auto.
  rewrite Forall_forall in *. intros x Hx. apply filter_In in Hx. apply Ha. tauto.
Qed.

Lemma NoDup_map_lt {B : Type} (f : nat -> B) (n : nat) (js : list nat) :
  (forall i j, i < n -> j < n -> f i = f j -> i = j) ->
  Forall (fun j => j < n) js ->
  ForallOrdPairs lt js -> NoDup (map f js).
Proof.
  intros Hinj Hlt Hord. induction Hord as [|a l Ha Hl IH]; simpl;
    constructor.
  - intros Hin. apply in_map_iff in Hin as (x & Hx & Hin).
    inversion Hlt; subst. rewrite Forall_forall in *.
    assert (x = a) by (apply Hinj; auto). subst x.
    specialize (Ha a Hin). lia.
  - apply IH. now inversion Hlt.
Qed.

(** X6.  No group lists a column twice, and the members of a group follow the
    column order of the dataset, the representative first. *)
Theorem group_members_distinct_in_column_order
    (data : dataset) (cors : matrix) (thr : float)
    (dg : list grouped_row) (g : group_assignment)
    (name : string) (members : list string) :
  unique_columns data ->
  group_columns data cors thr = Ok (dg, g) ->
  In (name, members) g ->
  NoDup members
  /\ exists js, ForallOrdPairs lt js
                /\ map (nth_error (columns_of data)) js = map Some members.
Proof.
  intros Hnd Hrun Hin.
  destruct members as [|c members].
  { split; [constructor | exists []; split; constructor]. }
  destruct (group_in _ _ _ _ _ Hnd Hrun _ _ Hin) as (r & Hr & ->);
    [discriminate|].
  pose proof (reps_of_lt _ _ _ _ Hr) as Hlt.
  set (cols := columns_of data) in *.
  set (js := r :: filter (above cors thr r) (seq (S r) (length cols - S r))).
  assert (Hjs : group_of cors thr cols r = map (col_name cols) js)
    by reflexivity.
  assert (Hord : ForallOrdPairs lt js).
  { constructor.
    - apply Forall_forall. intros x Hx. apply filter_In in Hx as [Hx _].
      apply in_seq in Hx. lia.
    - apply ForallOrdPairs_filter, ForallOrdPairs_lt_seq. }
  assert (Hb : Forall (fun j => j < length cols) js).
  { constructor; auto. apply Forall_forall. intros x Hx.
    apply filter_In in Hx as [Hx _]. apply in_seq in Hx. lia. }
  rewrite Hjs. split.
  - eapply NoDup_map_lt; eauto. intros; now apply (col_name_inj cols).
  - exists js. split; auto. rewrite map_map.
    apply map_ext_in. intros j Hj. rewrite Forall_forall in Hb.
    unfold col_name. apply nth_error_nth'. auto.
Qed.

Lemma group_members_distinct_in_column_order_witness :
  NoDup ["b"; "c"]
  /\ exists js, ForallOrdPairs lt js
                /\ map (nth_error (columns_of overlap)) js
                   = map Some ["b"; "c"].
Proof.
  refine (group_members_distinct_in_column_order overlap (cors_of overlap)
            0.5 _ [("Group 1", ["a"; "c"]); ("Group 2", ["b"; "c"])]
            "Group 2" ["b"; "c"] _ _ _).
  - unfold unique_columns. simpl. prove_NoDup.
  - vm_compute. reflexivity.
  - simpl. auto.
Defined.

(** ** Extreme thresholds and degenerate datasets *)

Lemma filter_none {A : Type} (f : A -> bool) (l : list A) :
  (forall x, f x = false) -> filter f l = [].
Proof.
  intros H. induction l as [|x l IH]; simpl; auto. now rewrite H.
Qed.

Lemma filter_all {A : Type} (f : A -> bool) (l : list A) :
  (forall x, In x l -> f x = true) -> filter f l = l.
Proof.
  induction l as [|x l IH]; simpl; intros H; auto.
  rewrite (H x) by auto. f_equal. auto.
Qed.

Lemma groups_when_none_above (data : dataset) (cors : matrix) (thr : float)
    (dg : list grouped_row) (g : group_assignment) :
  unique_columns data ->
  group_columns data cors thr = Ok (dg, g) ->
  (forall i j, above cors thr i j = false) ->
  g = label_groups (map (fun c => [c]) (columns_of data)).
Proof.
  intros Hnd Hrun Hab.
  rewrite (group_columns_groups _ _ _ _ _ Hnd Hrun). f_equal.
  unfold reps_of. rewrite founders_none by assumption. simpl.
  rewrite <- (map_col_name_seq (columns_of data)) at 3.
  rewrite map_map. apply map_ext. intros r.
  unfold group_of, absorbed. now rewrite filter_none.
Qed.

(** X8.  When no entry of the matrix is above the threshold, every column is
    alone in a group of its own, in column order. *)
Theorem no_entry_above_threshold_gives_singletons
    (data : dataset) (cors : matrix) (thr : float)
    (dg : list grouped_row) (g : group_assignment) :
  unique_columns data ->
  columns_of data <> [] ->
  group_columns data cors thr = Ok (dg, g) ->
  (forall i j c, entry cors i j = Some c -> float_gt c thr = false) ->
  singleton_groups g (columns_of data).
Proof.
  intros Hnd Hne Hrun Hab.
  rewrite (groups_when_none_above _ _ _ _ _ Hnd Hrun).
  - unfold singleton_groups.
    destruct (columns_of data) as [|c cols]; [congruence|].
    rewrite label_groups_cons_eq by discriminate.
    unfold Dict.values. rewrite map_snd_combine; [reflexivity|].
    now rewrite length_map, length_seq.
  - intros i j. destruct (above cors thr i j) eqn:E; auto.
    apply above_true_iff in E as (c & Hc & Hgt).
    rewrite (Hab _ _ _ Hc) in Hgt. discriminate.
Qed.

Lemma no_entry_above_threshold_gives_singletons_witness :
  singleton_groups [("Group 1", ["a"]); ("Group 2", ["b"])]
    (columns_of mixed).
Proof.
  refine (no_entry_above_threshold_gives_singletons mixed
            [[0.5; 0.25]; [0.25; 0.5]]%float 0.75 _ _ _ _ _ _).
  - unfold unique_columns. simpl. prove_NoDup.
  - discriminate.
  - vm_compute. reflexivity.
  - intros i j c H. unfold entry in H.
    destruct i as [|[|i]]; simpl in H; [ | | destruct i; discriminate];
      (destruct j as [|[|j]]; simpl in H; [ | | destruct j; discriminate];
       injection H as <-; reflexivity).
Defined.

Lemma float_gt_nan_threshold (c t : float) :
  is_nan t = true -> float_gt c t = false.
Proof.
  unfold is_nan, float_gt. rewrite eqb_spec, ltb_spec. intros H.
  apply negb_true_iff, SFeqb_irrefl_nan in H. now rewrite H.
Qed.

(** X9.  With a NaN threshold, a dataset whose rows are at least as long as
    the first and a matrix with at least as many rows and columns as the
    dataset has columns, [group_columns] returns: the comparisons with NaN
    raise nothing, each of them fails, and every column ends alone in its
    own group. *)
Theorem nan_threshold_gives_singletons
    (data : dataset) (cors : matrix) (thr : float) :
  unique_columns data ->
  columns_of data <> [] ->
  rows_cover data ->
  matrix_covers data cors ->
  is_nan thr = true ->
  exists dg g,
    group_columns data cors thr = Ok (dg, g)
    /\ singleton_groups g (columns_of data).
Proof.
  intros Hnd Hne [Hdata Hrows] [Htall Hwide] Hnan.
  assert (Hrun : exists res, group_columns data cors thr = Ok res).
  { unfold group_columns.
    destruct data as [|row0 rest]; [congruence|]. simpl.
    destruct (columns_loop_total (row0 :: rest) cors thr (Dict.keys row0)
                Hrows Htall Hwide (Dict.keys row0) 0
                (init_state (row0 :: rest))) as [st Hst]; [simpl; lia|].
    rewrite Hst. simpl. eauto. }
  destruct Hrun as [[dg g] Hrun]. exists dg, g. split; [assumption|].
  rewrite (groups_when_none_above _ _ _ _ _ Hnd Hrun).
  - unfold singleton_groups.
    destruct (columns_of data) as [|c cols]; [congruence|].
    rewrite label_groups_cons_eq by discriminate.
    unfold Dict.values. rewrite map_snd_combine; [reflexivity|].
    now rewrite length_map, length_seq.
  - intros i j. destruct (above cors thr i j) eqn:E; auto.
    apply above_true_iff in E as (c & _ & Hgt).
    rewrite float_gt_nan_threshold in Hgt by assumption. discriminate.
Qed.

Lemma nan_threshold_gives_singletons_witness :
  exists dg g,
    group_columns scenario (cors_of scenario) nan = Ok (dg, g)
    /\ singleton_groups g (columns_of scenario).
Proof.
  refine (nan_threshold_gives_singletons scenario (cors_of scenario) nan
            _ _ _ _ _).
  - unfold unique_columns. simpl. prove_NoDup.
  - discriminate.
  - split; [discriminate|]. repeat constructor.
  - split; [vm_compute; lia|]. vm_compute. repeat constructor.
  - reflexivity.
Defined.

(** X10.  When the first column correlates above the threshold with every other
    column, there is a single group and it lists all columns in order. *)
Theorem first_column_absorbs_all
    (data : dataset) (cors : matrix) (thr : float)
    (dg : list grouped_row) (g : group_assignment) :
  unique_columns data ->
  columns_of data <> [] ->
  group_columns data cors thr = Ok (dg, g) ->
  (forall j, 0 < j < length (columns_of data) ->
     exists c, entry cors 0 j = Some c /\ float_gt c thr = true) ->
  g = [(name_of_group 1, columns_of data)].
Proof.
  intros Hnd Hne Hrun Hab.
  rewrite (group_columns_groups _ _ _ _ _ Hnd Hrun).
  assert (Hab' : forall v, In v (seq 1 (length (columns_of data) - 1)) ->
                 above cors thr 0 v = true).
  { intros v Hv. apply in_seq in Hv. apply above_true_iff, Hab. lia. }
  unfold reps_of.
  destruct (columns_of data) as [|c cols] eqn:E; [congruence|].
  simpl length in *. simpl seq. simpl founders.
  replace (S (length cols) - 1) with (length cols) in Hab' by lia.
  rewrite founders_all by assumption. simpl. f_equal. f_equal.
  unfold group_of, absorbed. simpl length.
  replace (S (length cols) - 1) with (length cols) by lia.
  rewrite filter_all by assumption.
  change (col_name (c :: cols) 0
          :: map (col_name (c :: cols)) (seq 1 (length cols)))
    with (map (col_name (c :: cols)) (seq 0 (length (c :: cols)))).
  apply map_col_name_seq.
Qed.

Lemma first_column_absorbs_all_witness :
  [("Group 1", ["a"; "b"; "c"])] = [(name_of_group 1, columns_of scenario)].
Proof.
  refine (first_column_absorbs_all scenario (cors_of scenario) (-0.75) _ _
            _ _ _ _).
  - unfold unique_columns. simpl. prove_NoDup.
  - discriminate.
  - vm_compute. reflexivity.
  - intros j Hj. simpl in Hj.
    assert (Hc : j = 1 \/ j = 2) by lia.
    destruct Hc as [-> | ->]; eexists; split; vm_compute; reflexivity.
Defined.

(** X11.  A dataset with a single column gives one group holding that column,
    whatever the threshold and whatever the matrix, which is never read. *)
Theorem single_column_dataset (c : string) (v0 : num) (rest : dataset)
    (cors : matrix) (thr : float) :
  Forall (fun r : row => r <> []) rest ->
  exists dg,
    group_columns ([(c, v0)] :: rest) cors thr
    = Ok (dg, [(name_of_group 1, [c])])
    /\ length dg = S (length rest).
Proof.
  intros Hrest. unfold group_columns. simpl.
  destruct (column_total ([(c, v0)] :: rest) 0) as [vals Hvals].
  { constructor; [simpl; lia|].
    eapply Forall_impl; [|exact Hrest]. simpl. intros [|x r] H; [congruence|].
    simpl; lia. }
  unfold visit. simpl. rewrite Hvals. simpl.
  eexists. split; [reflexivity|].
  unfold store_group_vals. rewrite length_map, length_combine.
  rewrite (column_length _ _ _ Hvals). simpl. rewrite length_map. lia.
Qed.

Lemma single_column_dataset_witness :
  exists dg,
    group_columns [[("a", PyInt 1)]; [("a", PyInt 2)]] [] 0.5
    = Ok (dg, [(name_of_group 1, ["a"])])
    /\ length dg = 2.
Proof.
  refine (single_column_dataset "a" (PyInt 1) [[("a", PyInt 2)]] [] 0.5 _).
  repeat constructor. discriminate.
Defined.

(** X12.  A group without members exists exactly when the dataset has no
    columns: then the placeholder ['Group 1': []] is returned as it was
    initialised. *)
Theorem empty_group_iff_no_columns
    (data : dataset) (cors : matrix) (thr : float)
    (dg : list grouped_row) (g : group_assignment) :
  unique_columns data ->
  group_columns data cors thr = Ok (dg, g) ->
  ((exists name, In (name, []) g) <-> columns_of data = [])
  /\ (columns_of data = [] ->
      g = [(init_group, [])]
      /\ dg = map (fun _ => [(init_group, EmptyList)]) data).
Proof.
  intros Hnd Hrun.
  pose proof (group_columns_groups _ _ _ _ _ Hnd Hrun) as Hg.
  pose proof (group_columns_rows _ _ _ _ _ Hnd Hrun) as Hd.
  split; [split|].
  - intros [name Hin]. apply reps_of_nil with (cors := cors) (thr := thr).
    destruct (reps_of data cors thr) as [|r reps] eqn:E; auto.
    rewrite Hg in Hin. apply in_label_groups in Hin; [|discriminate].
    apply in_map_iff in Hin as (r' & Hr' & _). discriminate.
  - intros Hc. apply (reps_of_nil data cors thr) in Hc.
    rewrite Hg, Hc. exists init_group. simpl. auto.
  - intros Hc. apply (reps_of_nil data cors thr) in Hc.
    rewrite Hg, Hd, Hc. split; reflexivity.
Qed.

Lemma empty_group_iff_no_columns_witness :
  ((exists name, In (name, []) [("Group 1", @nil string)])
   <-> columns_of no_columns = [])
  /\ (columns_of no_columns = [] ->
      [("Group 1", @nil string)] = [(init_group, [])]
      /\ [[("Group 1", EmptyList)]; [("Group 1", EmptyList)]]
         = map (fun _ => [(init_group, EmptyList)]) no_columns).
Proof.
  refine (empty_group_iff_no_columns no_columns [] 0.5 _ _ _ _).
  - constructor.
  - reflexivity.
Defined.

(** ** What the scan reads *)

Lemma read_entry_entry (cors : matrix) (i j : nat) :
  read_entry cors i j
  = match entry cors i j with
    | Some c => Ok c
    | None => Raise IndexError
    end.
Proof.
  unfold read_entry, entry, index.
  destruct (nth_error cors i) as [r|]; reflexivity.
Qed.

Lemma scan_read_entry (cors : matrix) (thr : float) (col_list : list string)
    (val : nat) (name : string) (g : group_assignment) (j : nat) :
  scan cors thr col_list val name g j
  = (c <- read_entry cors val j ;;
     if float_gt c thr then
       stor <- index col_list j ;;
       members <- Dict.get g name ;;
       Ok (Dict.set g name (members ++ [stor]))
     else Ok g).
Proof.
  unfold scan, read_entry. destruct (index cors val); reflexivity.
Qed.

Lemma columns_loop_same_entries (data : dataset) (cors cors' : matrix)
    (thr : float) (col_list : list string) (cols : list string) :
  (forall i j, i < j < length col_list -> entry cors i j = entry cors' i j) ->
  forall val st,
  columns_loop data cors thr col_list val cols st
  = columns_loop data cors' thr col_list val cols st.
Proof.
  intros Hsame. induction cols as [|col rest IH]; simpl; intros val st;
    [reflexivity|].
  assert (Hv : visit data cors thr col_list st val col
               = visit data cors' thr col_list st val col).
  { unfold visit.
    destruct (negb (grouped (group_labels_with_columns st) col)); auto.
    destruct (column data val); simpl; auto.
    erewrite foldM_ext_in; [reflexivity|].
    intros s x Hx. apply in_seq in Hx.
    rewrite !scan_read_entry, !read_entry_entry, Hsame by lia. reflexivity. }
  rewrite Hv. destruct (visit data cors' thr col_list st val col); simpl; auto.
Qed.

(** X13.  The result depends on the matrix only through the entries [cors[i][j]]
    with [i < j] below the column count: two matrices that agree there, on
    values and on which entries exist, give the same outcome.  Rows and
    columns beyond the column count, the diagonal, the lower triangle and
    the last row count for nothing. *)
Theorem group_columns_reads_only_upper_entries
    (data : dataset) (cors cors' : matrix) (thr : float) :
  (forall i j, i < j < length (columns_of data) ->
     entry cors i j = entry cors' i j) ->
  group_columns data cors thr = group_columns data cors' thr.
Proof.
  intros Hsame. unfold group_columns.
  destruct data as [|row0 rest]; [reflexivity|]. simpl.
  now rewrite (columns_loop_same_entries _ cors cors').
Qed.

Lemma group_columns_reads_only_upper_entries_witness :
  group_columns mixed [[1; 0.5]; [0.5; 1]]%float 0.25
  = group_columns mixed [[nan; 0.5; 0.75]]%float 0.25.
Proof.
  refine (group_columns_reads_only_upper_entries mixed _ _ 0.25 _).
  intros i j Hij. simpl in Hij.
  assert (Hi : i = 0 /\ j = 1) by lia. destruct Hi as [-> ->]. reflexivity.
Defined.

(** ** Threshold and the first group *)

(** X14.  Lowering the threshold never removes a member from ['Group 1']: for
    [t1 < t2] the first group at [t2] is contained in the first group at
    [t1]. *)
Theorem first_group_shrinks_with_threshold
    (data : dataset) (cors : matrix) (t1 t2 : float)
    (dg1 dg2 : list grouped_row) (g1 g2 : group_assignment)
    (n1 n2 : string) (m1 m2 : list string) :
  unique_columns data ->
  (t1 <? t2)%float = true ->
  group_columns data cors t1 = Ok (dg1, g1) ->
  group_columns data cors t2 = Ok (dg2, g2) ->
  hd_error g1 = Some (n1, m1) ->
  hd_error g2 = Some (n2, m2) ->
  incl m2 m1.
Proof.
  intros Hnd Ht H1 H2 Hg1 Hg2.
  destruct (columns_of data) as [|c0 cols] eqn:E.
  - rewrite (group_columns_groups _ _ _ _ _ Hnd H2) in Hg2.
    rewrite (proj2 (reps_of_nil data cors t2) E) in Hg2.
    simpl in Hg2. injection Hg2 as _ <-.
    intros x [].
  - assert (Hc : nth_error (columns_of data) 0 = Some c0) by now rewrite E.
    rewrite (group_columns_first _ _ _ _ _ _ Hnd H1 Hc) in Hg1.
    rewrite (group_columns_first _ _ _ _ _ _ Hnd H2 Hc) in Hg2.
    injection Hg1 as _ <-. injection Hg2 as _ <-.
    intros x [Hx|Hx]; [now left | right].
    apply in_absorbed_inv in Hx as (j & Hj & -> & Hab).
    apply in_absorbed; auto; [lia|]. split; [lia|].
    eapply above_mono; eauto.
Qed.

Lemma first_group_shrinks_with_threshold_witness :
  incl ["p"] ["p"; "q"].
Proof.
  refine (first_group_shrinks_with_threshold four (cors_of four) 0.1 0.5
            _ _ [("Group 1", ["p"; "q"]); ("Group 2", ["r"]);
                 ("Group 3", ["s"])]
            [("Group 1", ["p"]); ("Group 2", ["q"; "r"; "s"])]
            "Group 1" "Group 1" _ _ _ _ _ _ _ _).
  - unfold unique_columns. simpl. prove_NoDup.
  - reflexivity.
  - vm_compute. reflexivity.
  - vm_compute. reflexivity.
  - reflexivity.
  - reflexivity.
Defined.

(** ** Coverage and constant columns *)

Lemma group_columns_covers_witness :
  In "c" (concat (Dict.values [("Group 1", ["a"; "c"]); ("Group 2", ["b"; "c"])]))
  <-> In "c" (columns_of overlap).
Proof.
  refine (group_columns_covers overlap (cors_of overlap) 0.5 _ _ _ _ "c").
  - unfold unique_columns. simpl. prove_NoDup.
  - vm_compute. reflexivity.
Defined.

(** X15.  A column whose correlations with all other columns are NaN, as the
    matrix has them for a constant column, is alone in its group and is
    listed in no other group. *)
Theorem nan_column_in_singleton_group
    (data : dataset) (cors : matrix) (thr : float)
    (dg : list grouped_row) (g : group_assignment)
    (z : nat) (cz name : string) (members : list string) :
  unique_columns data ->
  group_columns data cors thr = Ok (dg, g) ->
  nth_error (columns_of data) z = Some cz ->
  (forall j c, entry cors z j = Some c -> is_nan c = true) ->
  (forall i c, entry cors i z = Some c -> is_nan c = true) ->
  In (name, members) g -> In cz members ->
  members = [cz].
Proof.
  intros Hnd Hrun Hz Hrow Hcol Hin Hmem.
  eapply nan_column_is_alone; eauto.
  - intros j. destruct (above cors thr z j) eqn:E; auto.
    apply above_true_iff in E as (c & Hc & Hgt).
    rewrite float_gt_nan in Hgt by eauto. discriminate.
  - intros r. destruct (above cors thr r z) eqn:E; auto.
    apply above_true_iff in E as (c & Hc & Hgt).
    rewrite float_gt_nan in Hgt by eauto. discriminate.
Qed.

Lemma nan_column_in_singleton_group_witness : ["k"] = ["k"].
Proof.
  refine (nan_column_in_singleton_group flat (cors_of flat) 0.9 _
            [("Group 1", ["a"; "b"]); ("Group 2", ["k"])]
            1 "k" "Group 2" ["k"] _ _ _ _ _ _ _).
  - unfold unique_columns. simpl. prove_NoDup.
  - vm_compute. reflexivity.
  - reflexivity.
  - intros j c H. unfold entry in H. simpl in H.
    destruct j as [|[|[|j]]]; simpl in H;
      [ | | | destruct j; discriminate]; injection H as <-; reflexivity.
  - intros i c H. unfold entry in H.
    destruct i as [|[|[|i]]]; simpl in H;
      [ | | | destruct i; discriminate]; injection H as <-; reflexivity.
  - simpl. auto.
  - simpl. auto.
Defined.

(** * Further properties of [correlation_matrix] *)

(** X16.  Whenever a matrix is returned it is square, with as many rows and
    columns as the first row of the dataset has entries, whatever the
    number of rows of the dataset. *)
Theorem correlation_matrix_is_square
    (corrcoef01 : list num -> list num -> float) (data : dataset) (m : matrix) :
  correlation_matrix corrcoef01 data = Ok m ->
  dimensions_match data m.
Proof.
  intros Hm.
  destruct (correlation_matrix_entries corrcoef01 data m Hm) as [Hlen Hent].
  split; [assumption|].
  apply Forall_forall. intros r Hr.
  apply In_nth_error in Hr as [i Hi].
  assert (Hlt : i < length (columns_of data)).
  { rewrite <- Hlen. apply nth_error_Some. congruence. }
  destruct (Hent i Hlt) as (r' & Hr' & Hrl & _). congruence.
Qed.

Lemma correlation_matrix_is_square_witness :
  dimensions_match four (cors_of four).
Proof.
  refine (correlation_matrix_is_square Pearson.pearson four _ _).
  vm_compute. reflexivity.
Defined.

Lemma find_nth_error {V : Type} (d : Dict.t V) :
  NoDup (Dict.keys d) ->
  forall i k v, nth_error d i = Some (k, v) -> Dict.find d k = Some v.
Proof.
  induction d as [|[k0 v0] d IH]; simpl; intros Hnd i k v Hi.
  - destruct i; discriminate.
  - inversion Hnd as [|? ? Hnotin Hnd']; subst.
    destruct i as [|i]; simpl in Hi.
    + injection Hi as <- <-. now rewrite String.eqb_refl.
    + destruct (String.eqb_spec k k0) as [->|Hne].
      * exfalso. apply Hnotin. apply nth_error_In in Hi.
        change k0 with (fst (k0, v)). now apply in_map.
      * eauto.
Qed.

(** With distinct keys, the cell at a position is the value at that
    position. *)
Lemma cell_at_values (r : row) (i : nat) :
  NoDup (Dict.keys r) -> cell_at r i = index (Dict.values r) i.
Proof.
  intros Hnd. unfold cell_at, index, Dict.keys, Dict.values.
  rewrite !nth_error_map.
  destruct (nth_error r i) as [[k v]|] eqn:E; simpl; [|reflexivity].
  unfold Dict.get. now rewrite (find_nth_error r Hnd i k v E).
Qed.

Lemma column_values (data : dataset) (i : nat) :
  Forall (fun r : row => NoDup (Dict.keys r)) data ->
  column data i = mapM (fun vs => index vs i) (map (@Dict.values num) data).
Proof.
  unfold column. induction 1 as [|r data Hr Hdata IH]; simpl; [reflexivity|].
  now rewrite cell_at_values, IH.
Qed.

Lemma mapM_ext_all {A B : Type} (f g : A -> result B) (l : list A) :
  (forall x, f x = g x) -> mapM f l = mapM g l.
Proof.
  intros H. induction l as [|x l IH]; simpl; [reflexivity|].
  now rewrite H, IH.
Qed.

(** X17.  The matrix depends on the values by position only: two datasets whose
    rows hold the same values in the same order give the same outcome,
    whatever their column names. *)
Theorem correlation_matrix_ignores_column_names
    (corrcoef01 : list num -> list num -> float) (data data' : dataset) :
  Forall (fun r : row => NoDup (Dict.keys r)) data ->
  Forall (fun r : row => NoDup (Dict.keys r)) data' ->
  map (@Dict.values num) data = map (@Dict.values num) data' ->
  correlation_matrix corrcoef01 data = correlation_matrix corrcoef01 data'.
Proof.
  intros Hnd Hnd' Hv. unfold correlation_matrix.
  destruct data as [|r data], data' as [|r' data']; try discriminate;
    [reflexivity|].
  simpl index. simpl bind.
  assert (Hlen : length r = length r').
  { injection Hv as Hr _. apply (f_equal (@length num)) in Hr.
    unfold Dict.values in Hr. now rewrite !length_map in Hr. }
  rewrite Hlen. unfold correlation.
  assert (Hcol : forall i, column (r :: data) i = column (r' :: data') i).
  { intros i. now rewrite !column_values, Hv. }
  apply mapM_ext_all. intros i. apply mapM_ext_all. intros j.
  now rewrite !Hcol.
Qed.

Lemma correlation_matrix_ignores_column_names_witness :
  correlation_matrix Pearson.pearson mixed
  = correlation_matrix Pearson.pearson
      [ [("u", PyInt 1); ("v", PyInt 2)];
        [("u", PyInt 2); ("v", PyInt 3)];
        [("u", PyInt 4); ("v", PyInt 7)] ].
Proof.
  refine (correlation_matrix_ignores_column_names Pearson.pearson mixed _
            _ _ _).
  - repeat constructor; simpl; intuition discriminate.
  - repeat constructor; simpl; intuition discriminate.
  - reflexivity.
Defined.

(** ** [correlation_matrix] followed by [group_columns] *)

Lemma mapM_Ok_in {A B : Type} (f : A -> result B) (l : list A) (r : list B) :
  mapM f l = Ok r -> forall x, In x l -> exists y, f x = Ok y.
Proof.
  revert r. induction l as [|x0 l IH]; simpl; intros r H x Hx;
    [contradiction|].
  inv_bind H. inv_bind H. destruct Hx as [<-|Hx]; eauto.
Qed.

Lemma cell_at_Ok_lt (r : row) (i : nat) (v : num) :
  cell_at r i = Ok v -> i < length r.
Proof.
  intros H. destruct (Nat.lt_ge_cases i (length r)) as [|Hge]; auto.
  unfold cell_at, index in H.
  rewrite (proj2 (nth_error_None (Dict.keys r) i)) in H; [discriminate|].
  unfold Dict.keys. now rewrite length_map.
Qed.

(** A returned matrix means that every row was read at every column
    position. *)
Lemma correlation_matrix_rows_cover
    (corrcoef01 : list num -> list num -> float) (data : dataset) (m : matrix) :
  correlation_matrix corrcoef01 data = Ok m -> rows_cover data.
Proof.
  intros Hm.
  destruct (correlation_matrix_entries corrcoef01 data m Hm) as [_ Hent].
  split.
  - intros ->. discriminate Hm.
  - apply Forall_forall. intros r Hr.
    destruct (length (columns_of data)) as [|n] eqn:En; [lia|].
    destruct (Hent n (Nat.lt_succ_diag_r n)) as (r0 & _ & _ & Hrow).
    destruct (Hrow n (Nat.lt_succ_diag_r n)) as (x & y & Hx & _ & _).
    destruct (mapM_Ok_in _ _ _ Hx r Hr) as [v Hv].
    apply cell_at_Ok_lt in Hv. lia.
Qed.

(** X18.  Whenever [correlation_matrix] returns a matrix for a dataset, the
    matrix has the dimensions of the dataset and [group_columns], called
    with the same dataset and that matrix, returns a result for every
    threshold. *)
Theorem grouping_computed_matrix_succeeds
    (corrcoef01 : list num -> list num -> float) (data : dataset)
    (m : matrix) :
  correlation_matrix corrcoef01 data = Ok m ->
  dimensions_match data m
  /\ forall thr, exists res, group_columns data m thr = Ok res.
Proof.
  intros Hm.
  destruct (correlation_matrix_rows_cover corrcoef01 data m Hm)
    as [Hne Hrows].
  destruct (correlation_matrix_entries corrcoef01 data m Hm) as [Hlen Hent].
  assert (Hsq : Forall (fun r => length r = length (columns_of data)) m).
  { apply Forall_forall. intros r Hr.
    apply In_nth_error in Hr as [i Hi].
    assert (Hlt : i < length (columns_of data)).
    { rewrite <- Hlen. apply nth_error_Some. congruence. }
    destruct (Hent i Hlt) as (r' & Hr' & Hrl & _). congruence. }
  split; [split; assumption|].
  intros thr. unfold group_columns.
  destruct data as [|row0 rest]; [congruence|]. simpl.
  destruct (columns_loop_total (row0 :: rest) m thr (Dict.keys row0))
    with (cols := Dict.keys row0) (val := 0)
         (st := init_state (row0 :: rest)) as [st Hst].
  - exact Hrows.
  - simpl in Hlen. lia.
  - eapply Forall_impl; [|exact Hsq]. simpl. intros; lia.
  - simpl; lia.
  - rewrite Hst. simpl. eauto.
Qed.

Lemma grouping_computed_matrix_succeeds_witness :
  dimensions_match flat (cors_of flat)
  /\ forall thr, exists res, group_columns flat (cors_of flat) thr = Ok res.
Proof.
  refine (grouping_computed_matrix_succeeds Pearson.pearson flat _ _).
  vm_compute. reflexivity.
Defined.

(** * Properties of [update_dashboard] *)

Lemma prefix_append (c s : string) : String.prefix c (c ++ s)%string = true.
Proof.
  induction c as [|a c IH]; simpl; [destruct s; reflexivity|].
  destruct (ascii_dec a a); [assumption | contradiction].
Qed.

Lemma string_append_nil_r (c : string) : (c ++ EmptyString)%string = c.
Proof. induction c as [|a c IH]; simpl; [reflexivity | now rewrite IH]. Qed.

Lemma join_starts_with_head (sep c : string) (members : list string) :
  String.prefix c (String.concat sep (c :: members)) = true.
Proof.
  destruct members as [|m members]; simpl.
  - rewrite <- (string_append_nil_r c) at 2. apply prefix_append.
  - apply prefix_append.
Qed.

Lemma group_columns_keys (data : dataset) (cors : matrix) (thr : float)
    (dg : list grouped_row) (g : group_assignment) :
  unique_columns data ->
  group_columns data cors thr = Ok (dg, g) ->
  Dict.keys g = map name_of_group (seq 1 (length g)).
Proof.
  intros Hnd Hrun.
  rewrite (group_columns_groups _ _ _ _ _ Hnd Hrun).
  rewrite label_groups_label_with, keys_label_with.
  now rewrite <- label_groups_label_with, length_label_groups.
Qed.

Section DashboardFacts.

Variable create_parallel : list grouped_row -> string.

(** X19.  After a click, when grouping succeeds, the plot shows the grouped
    dataset and the table is rebuilt from the groups alone, whatever it held
    before: one row per group, in order, labelled ['Group 1'], ['Group 2'],
    ...; the text of each row starts with the name of the group's
    representative and is that bare name for a group of one column. *)
Theorem update_dashboard_table
    (n_clicks : Z) (thr : float) (old : option (list table_row))
    (mem : memory) (srcdoc : string) (tbl : option (list table_row)) :
  n_clicks <> 0%Z ->
  unique_columns (mem_data mem) ->
  update_dashboard create_parallel n_clicks thr old mem = Ok (srcdoc, tbl) ->
  exists dg g table,
    group_columns (mem_data mem) (mem_cors mem) thr = Ok (dg, g)
    /\ srcdoc = create_parallel dg
    /\ tbl = Some table
    /\ map Group table = map name_of_group (seq 1 (length table))
    /\ length table = length g
    /\ forall k name c members,
       nth_error g k = Some (name, c :: members) ->
       exists text,
         nth_error table k = Some (mk_table_row name text)
         /\ String.prefix c text = true
         /\ (members = [] -> text = c).
Proof.
  intros Hn Hnd H. unfold update_dashboard in H.
  destruct (Z.eqb_spec n_clicks 0) as [|_]; [contradiction|].
  inv_bind H. destruct a as [dg g]. injection H as <- <-.
  exists dg, g, (group_table g).
  split; [assumption|]. split; [reflexivity|]. split; [reflexivity|].
  assert (Hlen : length (group_table g) = length g)
    by (unfold group_table; apply length_map).
  split; [|split; [assumption|]].
  - rewrite Hlen. unfold group_table. rewrite map_map. simpl.
    fold (Dict.keys g).
    exact (group_columns_keys _ _ _ _ _ Hnd Ha).
  - intros k name c members Hk. unfold group_table.
    rewrite nth_error_map, Hk. cbn [option_map fst snd].
    eexists. split; [reflexivity|]. split.
    + apply join_starts_with_head.
    + intros ->. reflexivity.
Qed.


End DashboardFacts.

Lemma update_dashboard_table_witness :
  exists dg g table,
    group_columns scenario (cors_of scenario) 0.9 = Ok (dg, g)
    /\ "plot" = (fun _ : list grouped_row => "plot") dg
    /\ Some (group_table [("Group 1", ["a"; "b"]); ("Group 2", ["c"])])
       = Some table
    /\ map Group table = map name_of_group (seq 1 (length table))
    /\ length table = length g
    /\ forall k name c members,
       nth_error g k = Some (name, c :: members) ->
       exists text,
         nth_error table k = Some (mk_table_row name text)
         /\ String.prefix c text = true
         /\ (members = [] -> text = c).
Proof.
  refine (update_dashboard_table (fun _ => "plot") 1 0.9 None
            (mk_memory scenario (cors_of scenario)) _ _ _ _ _).
  - discriminate.
  - unfold unique_columns. simpl. prove_NoDup.
  - vm_compute. reflexivity.
Defined.


(** * Entries of the matrix by column name *)

Lemma mapM_ext_in {A B : Type} (f g : A -> result B) (l : list A) :
  (forall x, In x l -> f x = g x) -> mapM f l = mapM g l.
Proof.
  induction l as [|x l IH]; simpl; intros H; [reflexivity|].
  rewrite (H x), IH by auto. reflexivity.
Qed.

Lemma column_by_name (data : dataset) (i : nat) (c : string) :
  uniformly_keyed data ->
  nth_error (columns_of data) i = Some c ->
  column data i = mapM (fun r : row => Dict.get r c) data.
Proof.
  intros Hk Hc. unfold column. apply mapM_ext_in. intros r Hr.
  unfold uniformly_keyed in Hk. rewrite Forall_forall in Hk.
  unfold cell_at, index. now rewrite (Hk r Hr), Hc.
Qed.

(** X21.  For a uniformly keyed dataset, entry [[i][j]] of the matrix is the
    coefficient of the values found under the [i]-th and the [j]-th column
    name, taken over all rows in order. *)
Theorem correlation_matrix_entry_by_name
    (corrcoef01 : list num -> list num -> float) (data : dataset)
    (m : matrix) (i j : nat) (ci cj : string) :
  uniformly_keyed data ->
  correlation_matrix corrcoef01 data = Ok m ->
  nth_error (columns_of data) i = Some ci ->
  nth_error (columns_of data) j = Some cj ->
  exists x y,
    mapM (fun r : row => Dict.get r ci) data = Ok x
    /\ mapM (fun r : row => Dict.get r cj) data = Ok y
    /\ length x = length data /\ length y = length data
    /\ entry m i j = Some (corrcoef01 x y).
Proof.
  intros Hk Hm Hi Hj.
  destruct (correlation_matrix_entries corrcoef01 data m Hm) as [_ Hent].
  assert (Hil : i < length (columns_of data))
    by (apply nth_error_Some; congruence).
  assert (Hjl : j < length (columns_of data))
    by (apply nth_error_Some; congruence).
  destruct (Hent i Hil) as (r & Hr & _ & Hrj).
  destruct (Hrj j Hjl) as (x & y & Hx & Hy & Hc).
  exists x, y.
  rewrite <- (column_by_name data i ci Hk Hi).
  rewrite <- (column_by_name data j cj Hk Hj).
  split; [assumption|]. split; [assumption|].
  split; [eapply column_length; eauto|].
  split; [eapply column_length; eauto|].
  unfold entry. now rewrite Hr.
Qed.

Lemma correlation_matrix_entry_by_name_witness :
  exists x y,
    mapM (fun r : row => Dict.get r "a") scenario = Ok x
    /\ mapM (fun r : row => Dict.get r "c") scenario = Ok y
    /\ length x = length scenario /\ length y = length scenario
    /\ entry (cors_of scenario) 0 2 = Some (Pearson.pearson x y).
Proof.
  refine (correlation_matrix_entry_by_name Pearson.pearson scenario
            (cors_of scenario) 0 2 "a" "c" _ _ _ _).
  - repeat constructor.
  - vm_compute. reflexivity.
  - reflexivity.
  - reflexivity.
Defined.

(** * [correlation_matrix]: shape checks and symmetry (C6, C9) *)

Lemma mapM_Raise_uniform {A B : Type} (f : A -> result B) (l : list A)
    (e0 : exn) :
  (forall x e, f x = Raise e -> e = e0) ->
  (exists x, In x l /\ f x = Raise e0) ->
  mapM f l = Raise e0.
Proof.
  intros Hall. induction l as [|x0 l IH]; intros (x & Hin & Hx);
    [contradiction|].
  simpl. destruct (f x0) as [y|e] eqn:E; simpl.
  - destruct Hin as [->|Hin]; [congruence|].
    rewrite IH by eauto. reflexivity.
  - now rewrite (Hall _ _ E).
Qed.

Lemma column_empty_row (kv : string * num) (row0 : row) (rest : dataset) :
  In [] rest -> column ((kv :: row0) :: rest) 0 = Raise IndexError.
Proof.
  intros Hin. unfold column. cbn [mapM].
  replace (cell_at (kv :: row0) 0) with (Ok (snd kv)).
  - cbn [bind].
    rewrite (mapM_Raise_uniform (fun r : row => cell_at r 0) rest IndexError).
    + reflexivity.
    + intros r e H. now apply cell_at_Raise in H.
    + exists []. split; [assumption | reflexivity].
  - destruct kv as [k v]. unfold cell_at, index, Dict.get. simpl.
    now rewrite String.eqb_refl.
Qed.

(** C6, amended.  The correlation computation checks no shape and raises no
    [DataShapeError] in the cases named.  With no rows it fails with
    [IndexError]; when the first row has no columns it returns the empty
    matrix, whatever the other rows; when the first row has columns and some
    row is empty it fails with [IndexError]; and differing key sets are not
    noticed, since values are read by position: two datasets whose rows hold
    the same values in the same order have the same outcome, whatever their
    keys. *)
Theorem correlation_matrix_shape_is_unchecked
    (corrcoef01 : list num -> list num -> float) :
  correlation_matrix corrcoef01 [] = Raise IndexError
  /\ (forall rest, correlation_matrix corrcoef01 ([] :: rest) = Ok [])
  /\ (forall row0 rest, row0 <> [] -> In [] rest ->
      correlation_matrix corrcoef01 (row0 :: rest) = Raise IndexError)
  /\ (forall data data',
      Forall (fun r : row => NoDup (Dict.keys r)) data ->
      Forall (fun r : row => NoDup (Dict.keys r)) data' ->
      map (@Dict.values num) data = map (@Dict.values num) data' ->
      correlation_matrix corrcoef01 data = correlation_matrix corrcoef01 data').
Proof.
  split; [reflexivity|]. split; [reflexivity|]. split.
  - intros [|kv row0] rest Hne Hin; [congruence|].
    unfold correlation_matrix. cbn [index nth_error bind length seq mapM].
    unfold correlation at 1. now rewrite column_empty_row.
  - intros data data' Hnd Hnd' Hv. unfold correlation_matrix.
    destruct data as [|r data], data' as [|r' data']; try discriminate;
      [reflexivity|].
    cbn [index nth_error bind].
    assert (Hlen : length r = length r').
    { injection Hv as Hr _. apply (f_equal (@length num)) in Hr.
      unfold Dict.values in Hr. now rewrite !length_map in Hr. }
    rewrite Hlen. unfold correlation.
    assert (Hcol : forall i, column (r :: data) i = column (r' :: data') i).
    { intros i. now rewrite !column_values, Hv. }
    apply mapM_ext_all. intros i. apply mapM_ext_all. intros j.
    now rewrite !Hcol.
Qed.

Lemma correlation_matrix_shape_is_unchecked_witness :
  correlation_matrix Pearson.pearson
    [ [("a", PyInt 1); ("b", PyInt 2)]; [] ] = Raise IndexError
  /\ correlation_matrix Pearson.pearson mixed
     = correlation_matrix Pearson.pearson
         [ [("a", PyInt 1); ("b", PyInt 2)];
           [("a", PyInt 2); ("b", PyInt 3)];
           [("a", PyInt 4); ("b", PyInt 7)] ].
Proof.
  destruct (correlation_matrix_shape_is_unchecked Pearson.pearson)
    as (_ & _ & Hshort & Hpos).
  split.
  - apply Hshort; [discriminate | simpl; auto].
  - apply Hpos.
    + repeat constructor; simpl; intuition discriminate.
    + repeat constructor; simpl; intuition discriminate.
    + reflexivity.
Defined.

(** C9 as stated fails.  On [flat] the entries of the constant column [k]
    are NaN on both sides of the diagonal, and NaN is not [==] to itself.
    On [overlap], with the coefficient computed in numpy's order, entry
    [[0][2]] and entry [[2][0]] differ in the last bit. *)
Lemma correlation_matrix_not_symmetric :
  (rectangular flat
   /\ exists m,
        correlation_matrix Pearson.pearson flat = Ok m
        /\ entry m 0 1 = Some nan /\ entry m 1 0 = Some nan
        /\ symmetric_at m 0 1 = false)
  /\ (rectangular overlap
      /\ exists m,
           correlation_matrix Pearson.corrcoef_np overlap = Ok m
           /\ entry m 0 2 = Some 0.70710678118654746%float
           /\ entry m 2 0 = Some 0.70710678118654757%float
           /\ symmetric_at m 0 2 = false).
Proof.
  split; (split; [split; [discriminate | repeat constructor]|]);
    eexists; (split; [vm_compute; reflexivity|]);
    repeat split; vm_compute; reflexivity.
Qed.

(** C9, amended.  Whenever the matrix is returned, entry [[i][j]] is the
    coefficient [np.corrcoef(x, y)[0][1]] of column [i] and column [j], and
    entry [[j][i]] is the coefficient of the same two columns passed in the
    other order, from a call of its own.  So [m[i][j] == m[j][i]] holds
    exactly when the two calls return [==] values, which fails for NaN
    entries and where the two orders round differently. *)
Theorem correlation_matrix_entry_pairs
    (corrcoef01 : list num -> list num -> float) (data : dataset)
    (m : matrix) (i j : nat) :
  correlation_matrix corrcoef01 data = Ok m ->
  i < length (columns_of data) ->
  j < length (columns_of data) ->
  exists x y,
    column data i = Ok x /\ column data j = Ok y
    /\ length x = length y
    /\ entry m i j = Some (corrcoef01 x y)
    /\ entry m j i = Some (corrcoef01 y x)
    /\ symmetric_at m i j = PrimFloat.eqb (corrcoef01 x y) (corrcoef01 y x).
Proof.
  intros Hm Hi Hj.
  destruct (correlation_matrix_entries corrcoef01 data m Hm) as [_ Hent].
  destruct (Hent i Hi) as (ri & Hri & _ & Hrow_i).
  destruct (Hent j Hj) as (rj & Hrj & _ & Hrow_j).
  destruct (Hrow_i j Hj) as (x & y & Hx & Hy & Hij).
  destruct (Hrow_j i Hi) as (y' & x' & Hy' & Hx' & Hji).
  rewrite Hx in Hx'. rewrite Hy in Hy'.
  injection Hx' as <-. injection Hy' as <-.
  assert (Eij : entry m i j = Some (corrcoef01 x y))
    by (unfold entry; now rewrite Hri).
  assert (Eji : entry m j i = Some (corrcoef01 y x))
    by (unfold entry; now rewrite Hrj).
  exists x, y. repeat split; auto.
  - apply column_length in Hx, Hy. congruence.
  - unfold symmetric_at. now rewrite Eij, Eji.
Qed.

Lemma correlation_matrix_entry_pairs_witness :
  exists x y,
    column overlap 0 = Ok x /\ column overlap 2 = Ok y
    /\ length x = length y
    /\ entry (cors_of overlap) 0 2 = Some (Pearson.pearson x y)
    /\ entry (cors_of overlap) 2 0 = Some (Pearson.pearson y x)
    /\ symmetric_at (cors_of overlap) 0 2
       = PrimFloat.eqb (Pearson.pearson x y) (Pearson.pearson y x).
Proof.
  refine (correlation_matrix_entry_pairs Pearson.pearson overlap
            (cors_of overlap) 0 2 _ _ _).
  - vm_compute. reflexivity.
  - simpl. lia.
  - simpl. lia.
Defined.
